(** * Wiretrustee: Account Manager and Peer Engine

    A shallow embedding of [management/server/peer.go] (the Account Manager's
    peer operations) and of [client/internal/engine.go] (the agent's Peer
    Engine), with the properties the specification states about them; and
    of the packages [iface] (the WireGuard interface) and [cmd] (the login
    command), with properties of their own.

    Layout: the data model and the operations first, the theorems after. *)

From Stdlib Require Import ZArith NArith String Ascii List Lia.
From Stdlib.Strings Require Import Byte.
From stdpp Require Import base option list gmap strings pretty.

Local Open Scope string_scope.

(* ===================================================================== *)
(** * Part I: management/server/peer.go                                   *)
(* ===================================================================== *)

Module server.

(** ** gRPC status codes

    [NotFound], [FailedPrecondition] and [Internal] are the codes peer.go
    builds with [status.Errorf]; [Exhausted] is the error of the IP
    allocator. *)
Inductive Code := NotFound | FailedPrecondition | Internal | Exhausted.

#[global] Instance Code_eq_dec : EqDecision Code.
Proof. solve_decision. Defined.

(** ** Data model *)

(** [time.Time], as an instant on a discrete time line. *)
Definition Time := Z.
Bind Scope Z_scope with Time.

(** [net.IP]: [None] is Go's nil slice, [Some a] an IPv4 address read as a
    32-bit number. *)
Definition net_IP := option N.

Definition ipv4 (a b c d : N) : N := (((a * 256 + b) * 256 + c) * 256 + d)%N.

(** [net.IPNet]: an address and the number of leading ones of its mask. *)
Record IPNet := { IPNet_IP : N; IPNet_ones : N }.

Record PeerSystemMeta := {
  Hostname : string; GoOS : string; Kernel : string; Core : string;
  Platform : string; OS : string; WtVersion : string }.

Record PeerStatus := { LastSeen : Time; Connected : bool }.

(** A [*PeerStatus]: [None] is nil, [Some l] the address of a cell of the
    heap of status objects. *)
Definition StatusPtr := option nat.

Record Peer := {
  Peer_Key : string;
  Peer_SetupKey : string;
  Peer_IP : net_IP;
  Peer_Meta : PeerSystemMeta;
  Peer_Name : string;
  Peer_Status : StatusPtr }.

(** Modelled from the spec: the SetupKey record of section 3 (canonical
    value, usage count, usage limit, expiry instant, revoked flag); its Go
    declaration is not part of the sources. *)
Record SetupKey := {
  SetupKey_Key : string;
  SetupKey_UsedTimes : N;
  SetupKey_UsageLimit : N;
  SetupKey_ExpiresAt : Time;
  SetupKey_Revoked : bool }.

(** Modelled from the spec: the account's network, a CIDR and the
    last-assigned watermark (section 3). peer.go reads [Network.Net] only. *)
Record Network := { Network_Net : IPNet; Network_LastIP : net_IP }.

(** Modelled from the spec: the Account of section 3. peer.go uses the
    fields [Id], [Peers], [SetupKeys] and [Network]. *)
Record Account := {
  Account_Id : string;
  Account_SetupKeys : gmap string SetupKey;
  Account_Network : Network;
  Account_Peers : gmap string Peer }.

(** The coordinator's memory: the heap of [PeerStatus] objects that peers
    point to, and the accounts held by the Store. *)
Record World := {
  statuses : list PeerStatus;
  accounts : gmap string Account }.

(** ** Outcomes and the manager's monad

    An operation either returns, fails with a status code, or panics (a nil
    dereference). The memory is threaded through, and what was written
    before an error stays written. *)
Inductive outcome (A : Type) :=
  | Done (a : A)
  | Fail (c : Code)
  | Panic.
Arguments Done {A} a.
Arguments Fail {A} c.
Arguments Panic {A}.

Definition M (A : Type) : Type := World -> outcome A * World.

#[global] Instance M_ret : MRet M := fun A a w => (Done a, w).

#[global] Instance M_bind : MBind M := fun A B f m w =>
  match m w with
  | (Done a, w1) => f a w1
  | (Fail c, w1) => (Fail c, w1)
  | (Panic, w1) => (Panic, w1)
  end.

Definition fail {A} (c : Code) : M A := fun w => (Fail c, w).

(** [status.Errorf(c, ...)] on [err != nil]: whatever the callee failed
    with, the caller reports code [c]. A panic is not an error value. *)
Definition orErrorf {A} (c : Code) (m : M A) : M A := fun w =>
  match m w with
  | (Fail _, w1) => (Fail c, w1)
  | r => r
  end.

(** ** The heap of status objects *)

(** [&PeerStatus{...}]: a fresh cell. *)
Definition newStatus (s : PeerStatus) : M StatusPtr := fun w =>
  (Done (Some (length (statuses w))),
   {| statuses := (statuses w ++ [s])%list; accounts := accounts w |}).

(** [*p], which panics on nil. *)
Definition readStatus (p : StatusPtr) : M PeerStatus := fun w =>
  match p with
  | Some l => match statuses w !! l with
              | Some s => (Done s, w)
              | None => (Panic, w)
              end
  | None => (Panic, w)
  end.

(** [p.f = v] through the pointer, which panics on nil. *)
Definition updateStatus (p : StatusPtr) (f : PeerStatus -> PeerStatus) : M unit :=
  fun w =>
  match p with
  | Some l => match statuses w !! l with
              | Some s => (Done tt, {| statuses := <[l := f s]> (statuses w);
                                       accounts := accounts w |})
              | None => (Panic, w)
              end
  | None => (Panic, w)
  end.

Definition set_LastSeen (t : Time) (s : PeerStatus) : PeerStatus :=
  {| LastSeen := t; Connected := Connected s |}.

Definition set_Connected (b : bool) (s : PeerStatus) : PeerStatus :=
  {| LastSeen := LastSeen s; Connected := b |}.

(** ** Record updates *)

Definition set_Name (n : string) (p : Peer) : Peer :=
  {| Peer_Key := Peer_Key p; Peer_SetupKey := Peer_SetupKey p;
     Peer_IP := Peer_IP p; Peer_Meta := Peer_Meta p;
     Peer_Name := n; Peer_Status := Peer_Status p |}.

Definition set_Peers (ps : gmap string Peer) (a : Account) : Account :=
  {| Account_Id := Account_Id a; Account_SetupKeys := Account_SetupKeys a;
     Account_Network := Account_Network a; Account_Peers := ps |}.

Definition set_SetupKeys (ks : gmap string SetupKey) (a : Account) : Account :=
  {| Account_Id := Account_Id a; Account_SetupKeys := ks;
     Account_Network := Account_Network a; Account_Peers := Account_Peers a |}.

Definition set_accounts (m : gmap string Account) (w : World) : World :=
  {| statuses := statuses w; accounts := m |}.

(** ** Setup keys *)

(** Modelled from the spec: a setup key "becomes invalid when expired,
    revoked, or usage >= limit" (section 3). [IsValid] reads the clock; the
    key is expired once the clock is past its expiry instant. *)
Definition IsValid (sk : SetupKey) (now : Time) : bool :=
  negb (SetupKey_Revoked sk)
  && negb (SetupKey_ExpiresAt sk <? now)%Z
  && negb (SetupKey_UsageLimit sk <=? SetupKey_UsedTimes sk)%N.

(** Modelled from the spec: "mutated (usage++) on each successful
    registration"; [IncrementUsage] returns the incremented copy. *)
Definition IncrementUsage (sk : SetupKey) : SetupKey :=
  {| SetupKey_Key := SetupKey_Key sk;
     SetupKey_UsedTimes := (SetupKey_UsedTimes sk + 1)%N;
     SetupKey_UsageLimit := SetupKey_UsageLimit sk;
     SetupKey_ExpiresAt := SetupKey_ExpiresAt sk;
     SetupKey_Revoked := SetupKey_Revoked sk |}.

(** Modelled from the spec: "locate the SetupKey record" in the account's
    mapping setup-key-value -> SetupKey; [None] is the nil result. *)
Definition getAccountSetupKeyByKey (account : Account) (key : string)
  : option SetupKey :=
  Account_SetupKeys account !! key.

(** ** The IP allocator *)

(** Modelled from the spec: the number of addresses of a CIDR. *)
Definition netSize (n : IPNet) : N := (2 ^ (32 - IPNet_ones n))%N.

(** Modelled from the spec: the first address of a CIDR, its network
    address (the address with the host bits cleared). *)
Definition netBase (n : IPNet) : N := (IPNet_IP n / netSize n * netSize n)%N.

(** Modelled from the spec: the host addresses of section 4.2 in ascending
    order, every address of the CIDR but the first (network) and the last
    (broadcast). *)
Definition hostAddrs (n : IPNet) : list N :=
  map (fun i => (netBase n + N.of_nat i)%N)
      (seq 1 (N.to_nat (netSize n) - 2)).

(** Modelled from the spec: section 4.2, [allocate(cidr, taken_set)] "scans
    host addresses of cidr in canonical ascending order, skipping the
    network and broadcast addresses and any address present in taken_set,
    and returns the first hit"; [Exhausted] "when no host address remains".
    The result is Go's pair (ip, err), with a nil ip next to the error. *)
Definition AllocatePeerIP (ipNet : IPNet) (takenIps : list net_IP)
  : net_IP * option Code :=
  match List.find (fun a => negb (bool_decide (Some a ∈ takenIps)))
                  (hostAddrs ipNet) with
  | Some a => (Some a, None)
  | None => (None, Some Exhausted)
  end.

(** [ipNet.Contains(ip)]. *)
Definition Contains (n : IPNet) (ip : net_IP) : Prop :=
  match ip with
  | Some a => (netBase n <= a < netBase n + netSize n)%N
  | None => False
  end.

(** ** The Store

    The [Store] behind [manager.Store] is not part of the sources. The
    spec describes Storage as a "durable map of accounts, peers, setup
    keys" whose persistence is "atomic at the account granularity"
    (sections 2 and 4.1). Here the Store holds the accounts by id and
    hands out the objects it holds; an operation that persists takes a
    flag [io] telling whether the write to disk succeeds, and a write that
    fails changes nothing. A storage error is [Internal], a missing entry
    [NotFound]. *)

(** Modelled from the spec: the account filed under [accountId]. *)
Definition Store_GetAccount (accountId : string) : M Account := fun w =>
  match accounts w !! accountId with
  | Some a => (Done a, w)
  | None => (Fail NotFound, w)
  end.

(** Modelled from the spec: the accounts that satisfy [P], in the
    iteration order of the map. *)
Definition accountsWhere (P : Account -> Prop) `{!∀ a, Decision (P a)}
    (w : World) : list Account :=
  (map_to_list (filter (fun ia => P ia.2) (accounts w))).*2.

Definition ownsSetupKey (key : string) (a : Account) : Prop :=
  is_Some (Account_SetupKeys a !! key).

Definition ownsPeer (peerKey : string) (a : Account) : Prop :=
  is_Some (Account_Peers a !! peerKey).

#[global] Instance ownsSetupKey_dec key a : Decision (ownsSetupKey key a).
Proof. unfold ownsSetupKey. apply _. Defined.

#[global] Instance ownsPeer_dec key a : Decision (ownsPeer key a).
Proof. unfold ownsPeer. apply _. Defined.

(** Modelled from the spec: "look up the owning Account" of a setup key
    (section 4.1). *)
Definition Store_GetAccountBySetupKey (setupKey : string) : M Account := fun w =>
  match accountsWhere (ownsSetupKey setupKey) w with
  | a :: _ => (Done a, w)
  | [] => (Fail NotFound, w)
  end.

(** Modelled from the spec: the account that holds the peer, "resolves
    the requester's Account" (section 4.1). *)
Definition Store_GetPeerAccount (peerKey : string) : M Account := fun w =>
  match accountsWhere (ownsPeer peerKey) w with
  | a :: _ => (Done a, w)
  | [] => (Fail NotFound, w)
  end.

(** Modelled from the spec: [get_peer(pubkey)], the peer the Store holds
    under the key, or [NotFound]. *)
Definition Store_GetPeer (peerKey : string) : M Peer :=
  account ← Store_GetPeerAccount peerKey;
  match Account_Peers account !! peerKey with
  | Some p => mret p
  | None => fail NotFound
  end.

(** Modelled from the spec: "persist the whole Account atomically"; the
    account is filed under its id, or nothing changes. *)
Definition Store_SaveAccount (account : Account) (io : bool) : M unit := fun w =>
  if io then (Done tt, set_accounts (<[Account_Id account := account]> (accounts w)) w)
  else (Fail Internal, w).

(** Modelled from the spec: the persist step of "copy-modify-persist"; the
    peer is put under its key in the account [accountId], which is
    persisted. *)
Definition Store_SavePeer (accountId : string) (peer : Peer) (io : bool) : M unit :=
  account ← Store_GetAccount accountId;
  Store_SaveAccount
    (set_Peers (<[Peer_Key peer := peer]> (Account_Peers account)) account) io.

(** Modelled from the spec: [delete(account_id, pubkey)]; the peer is
    taken out of the account, which is persisted, and returned. *)
Definition Store_DeletePeer (accountId : string) (peerKey : string) (io : bool)
  : M Peer :=
  account ← Store_GetAccount accountId;
  match Account_Peers account !! peerKey with
  | Some p =>
      _ ← Store_SaveAccount
            (set_Peers (delete peerKey (Account_Peers account)) account) io;
      mret p
  | None => fail NotFound
  end.

(** ** strings.ToUpper, on ASCII text (setup keys are UUIDs) *)

Definition upperAscii (c : ascii) : ascii :=
  let n := nat_of_ascii c in
  if (97 <=? n)%nat && (n <=? 122)%nat then ascii_of_nat (n - 32) else c.

Fixpoint ToUpper (s : string) : string :=
  match s with
  | EmptyString => EmptyString
  | String c s' => String (upperAscii c) (ToUpper s')
  end.

(** ** The Account Manager (peer.go)

    Every operation holds [manager.mux] from entry to return, so each runs
    as one step on the memory. [now] is the value of [time.Now()] and [io]
    tells whether the operation's write to the Store succeeds. *)

(** [Peer.Copy]: a new Peer whose fields are those of [p]; [Status] is a
    pointer and is copied as a pointer. *)
Definition Copy (p : Peer) : Peer :=
  {| Peer_Key := Peer_Key p;
     Peer_SetupKey := Peer_SetupKey p;
     Peer_IP := Peer_IP p;
     Peer_Meta := Peer_Meta p;
     Peer_Name := Peer_Name p;
     Peer_Status := Peer_Status p |}.

Definition GetPeer (peerKey : string) : M Peer :=
  Store_GetPeer peerKey.

Definition MarkPeerConnected (peerKey : string) (connected : bool)
    (now : Time) (io : bool) : M unit :=
  peer ← Store_GetPeer peerKey;
  account ← Store_GetPeerAccount peerKey;
  let peerCopy := Copy peer in
  _ ← updateStatus (Peer_Status peerCopy) (set_LastSeen now);
  _ ← updateStatus (Peer_Status peerCopy) (set_Connected connected);
  Store_SavePeer (Account_Id account) peerCopy io.

Definition RenamePeer (accountId peerKey newName : string) (io : bool) : M Peer :=
  peer ← Store_GetPeer peerKey;
  let peerCopy := set_Name newName (Copy peer) in
  _ ← Store_SavePeer accountId peerCopy io;
  mret peerCopy.

Definition DeletePeer (accountId peerKey : string) (io : bool) : M Peer :=
  Store_DeletePeer accountId peerKey io.

(** [AddPeer]. [fresh] is what [newAccount()] returns on the legacy path of
    an empty setup key: a new account and its default setup key. *)
Definition AddPeer (setupKey : string) (peer : Peer)
    (now : Time) (fresh : Account * SetupKey) (io : bool) : M Peer :=
  let upperKey := ToUpper setupKey in
  '(account, sk) ←
    (if decide (String.length upperKey = 0) then mret fresh
     else
       account ← orErrorf NotFound (Store_GetAccountBySetupKey upperKey);
       match getAccountSetupKeyByKey account upperKey with
       | None => fail NotFound
       | Some sk => mret (account, sk)
       end);
  if negb (IsValid sk now) then fail FailedPrecondition
  else
    let takenIps := Peer_IP <$> (map_to_list (Account_Peers account)).*2 in
    let network := Account_Network account in
    let nextIp := (AllocatePeerIP (Network_Net network) takenIps).1 in
    status ← newStatus {| LastSeen := now; Connected := false |};
    let newPeer :=
      {| Peer_Key := Peer_Key peer;
         Peer_SetupKey := SetupKey_Key sk;
         Peer_IP := nextIp;
         Peer_Meta := Peer_Meta peer;
         Peer_Name := Peer_Name peer;
         Peer_Status := status |} in
    let account1 :=
      set_Peers (<[Peer_Key newPeer := newPeer]> (Account_Peers account)) account in
    let account2 :=
      set_SetupKeys (<[SetupKey_Key sk := IncrementUsage sk]>
                       (Account_SetupKeys account1)) account1 in
    _ ← orErrorf Internal (Store_SaveAccount account2 io);
    mret newPeer.

(** The peer [AddPeer] materializes for a proposal, and the account it
    hands to [SaveAccount]. *)
Definition newPeerOf (peer : Peer) (sk : SetupKey) (ip : net_IP) (status : StatusPtr)
  : Peer :=
  {| Peer_Key := Peer_Key peer;
     Peer_SetupKey := SetupKey_Key sk;
     Peer_IP := ip;
     Peer_Meta := Peer_Meta peer;
     Peer_Name := Peer_Name peer;
     Peer_Status := status |}.

Definition withPeer (account : Account) (sk : SetupKey) (newPeer : Peer) : Account :=
  set_SetupKeys
    (<[SetupKey_Key sk := IncrementUsage sk]> (Account_SetupKeys account))
    (set_Peers (<[Peer_Key newPeer := newPeer]> (Account_Peers account)) account).

(** The addresses held by the peers that are in the account now. *)
Definition takenIpsOf (account : Account) : list net_IP :=
  Peer_IP <$> (map_to_list (Account_Peers account)).*2.

(** How [AddPeer] comes by the account and the setup key it works on. *)
Definition resolves (setupKey : string) (fresh : Account * SetupKey) (w : World)
    (account : Account) (sk : SetupKey) : Prop :=
  (ToUpper setupKey = "" ∧ fresh = (account, sk))
  ∨ (ToUpper setupKey ≠ ""
     ∧ Store_GetAccountBySetupKey (ToUpper setupKey) w = (Done account, w)
     ∧ getAccountSetupKeyByKey account (ToUpper setupKey) = Some sk).

(** Peer [p0] is stored under [peerKey], its own key, in account
    [accountId], which is filed under its own id, and in no other account. *)
Definition storedPeer (peerKey accountId : string) (w : World) (p0 : Peer) : Prop :=
  ∃ a,
    accounts w !! accountId = Some a ∧ Account_Id a = accountId
    ∧ Account_Peers a !! peerKey = Some p0 ∧ Peer_Key p0 = peerKey
    ∧ ∀ id' a', accounts w !! id' = Some a' → ownsPeer peerKey a' → id' = accountId.

(** A setup key is invalid when it is revoked, expired or used up. *)
Definition invalid (sk : SetupKey) (now : Time) : Prop :=
  SetupKey_Revoked sk = true
  ∨ (SetupKey_ExpiresAt sk < now)%Z
  ∨ (SetupKey_UsageLimit sk <= SetupKey_UsedTimes sk)%N.

(** Account [id] is the one account that owns setup key [K]. *)
Definition soleOwner (K id : string) (w : World) : Prop :=
  ∀ id' a', accounts w !! id' = Some a' → ownsSetupKey K a' → id' = id.

(** Setup key [K] is filed in account [id], under its own value, with the
    given usage count and limit, and in no other account. *)
Definition keyState (K id : string) (w : World) (used limit : N) : Prop :=
  ∃ a sk,
    accounts w !! id = Some a ∧ Account_Id a = id
    ∧ Account_SetupKeys a !! K = Some sk ∧ SetupKey_Key sk = K
    ∧ SetupKey_UsedTimes sk = used ∧ SetupKey_UsageLimit sk = limit
    ∧ soleOwner K id w.

(** [registrations K n w w']: [n] registrations with setup key [K], each
    successful, lead from [w] to [w']. *)
Inductive registrations (K : string) : nat → World → World → Prop :=
  | registrations_O w : registrations K 0 w w
  | registrations_S n w w1 w2 setupKey peer now fresh io p :
      registrations K n w w1 →
      ToUpper setupKey = K →
      AddPeer setupKey peer now fresh io w1 = (Done p, w2) →
      registrations K (S n) w w2.

(** ** The read operations of the manager *)


(** [net.IP.String()]: the dotted quad of an IPv4 address, and the text
    Go prints for a nil address. *)
Definition IP_String (ip : net_IP) : string :=
  match ip with
  | None => "<nil>"
  | Some a =>
      pretty (a / 16777216)%N ++ "." ++ pretty (a / 65536 mod 256)%N ++ "."
      ++ pretty (a / 256 mod 256)%N ++ "." ++ pretty (a mod 256)%N
  end.

(** [GetPeerByIP]: the first peer of the account, in the order of the
    range, whose address prints as [peerIP]. Whatever the Store failed
    with, the caller is told the account was not found. *)
Definition GetPeerByIP (accountId peerIP : string) : M Peer :=
  account ← orErrorf NotFound (Store_GetAccount accountId);
  match List.find (fun peer => String.eqb peerIP (IP_String (Peer_IP peer)))
                  (map_to_list (Account_Peers account)).*2 with
  | Some peer => mret peer
  | None => fail NotFound
  end.

(** Within an account the addresses that are not nil are addresses of the
    account's network, and no two peers hold the same one. *)
Definition addressesOK (a : Account) : Prop :=
  ∀ k p ip,
    Account_Peers a !! k = Some p → Peer_IP p = Some ip →
    Contains (Network_Net (Account_Network a)) (Some ip)
    ∧ ∀ k' p', Account_Peers a !! k' = Some p' → Peer_IP p' = Some ip → k' = k.


End server.

(* ===================================================================== *)
(** * Part II: client/internal/engine.go                                  *)
(* ===================================================================== *)

Module internal.

(** A Go [error] value, by its message. *)
Definition error := string.

(** ** Configuration *)

(** [wgtypes.Key] values are carried by their text, the result of
    [String()]. *)
Record EngineConfig := {
  StunsTurns : list string;
  WgIface : string;
  WgAddr : string;
  WgPrivateKey : string;
  IFaceBlackList : gset string }.

(** Peer is an instance of the Connection Peer. *)
Record Peer := { WgPubKey : string; WgAllowedIps : string }.

(** The [ConnConfig] that [openPeerConnection] fills in; the listen address
    is "127.0.0.1:" followed by [WgListenPort]. *)
Record ConnConfig := {
  WgListenPort : Z;
  WgPeerIP : string;
  ConnConfig_WgIface : string;
  WgAllowedIPs : string;
  WgKey : string;
  RemoteWgKey : string;
  StunTurnURLS : list string;
  iFaceBlackList : gset string }.

(** ** Messages of the two streams *)

(** [sProto.Body_Type]; [Body_UNKNOWN] stands for a value of the enum that
    the switch of the signal handler has no case for. *)
Inductive Body_Type := Body_OFFER | Body_ANSWER | Body_CANDIDATE | Body_UNKNOWN.

Record Body := { Body_Type_of : Body_Type; Body_Payload : string }.

(** [sProto.Message]: [Message_Key] is the sender's public key and
    [Message_RemoteKey] the addressee's. *)
Record Message := {
  Message_Key : string;
  Message_RemoteKey : string;
  Message_Body : Body }.

Record RemotePeerConfig := {
  RemotePeerConfig_WgPubKey : string;
  RemotePeerConfig_AllowedIps : list string }.

(** [mgmProto.SyncResponse], of which the engine reads the remote peers. *)
Record SyncResponse := { RemotePeers : list RemotePeerConfig }.

Record IceCredentials := { uFrag : string; pwd : string }.

(** ** What the engine calls but does not define

    [Connection] and its methods live in another file of the package, the
    credential codec in the signal client, and the key and candidate
    parsers and the iteration order of a map in libraries and the runtime.
    The engine is written against this interface. A method that mutates the
    connection returns the connection as it is afterwards. *)
Class Externals (Connection Candidate : Type) := {
  NewConnection : ConnConfig -> Connection;
  Config : Connection -> ConnConfig;
  Close : Connection -> Connection * option error;
  OnOffer : Connection -> IceCredentials -> Connection * option error;
  OnAnswer : Connection -> IceCredentials -> Connection * option error;
  OnRemoteCandidate : Connection -> Candidate -> Connection * option error;
  (** [signal.UnMarshalCredential] *)
  UnMarshalCredential : Message -> IceCredentials + error;
  (** [ice.UnmarshalCandidate] *)
  UnmarshalCandidate : string -> Candidate + error;
  (** [wgtypes.ParseKey(s)] followed by [String()]: the text of the parsed
      key, which is the text of the zero key when [s] does not parse. *)
  ParseKey_String : string -> string;
  (** [wgtypes.Key.PublicKey()], on the texts of the keys. *)
  PublicKey : string -> string;
  (** The order in which [range] visits the keys of a map; Go leaves it
      unspecified, every key is visited once. *)
  rangeKeys : gmap string Connection -> list string;
  rangeKeys_NoDup : ∀ m, NoDup (rangeKeys m);
  rangeKeys_spec : ∀ m k, k ∈ rangeKeys m ↔ is_Some (m !! k) }.

Section engine.
Context {Connection Candidate : Type} `{!Externals Connection Candidate}.

(** ** The engine

    [conns] maps the public key of a remote peer to its connection. Only
    [openPeerConnection] stores into it, and it stores a connection it has
    just built, so no entry is nil. *)
Record Engine := {
  conns : gmap string Connection;
  config : EngineConfig;
  wgPort : Z }.

Definition set_conns (m : gmap string Connection) (e : Engine) : Engine :=
  {| conns := m; config := config e; wgPort := wgPort e |}.

(** [removePeerConnection] closes existing peer connection and removes
    peer: the entry is deleted first, the result is that of [Close]. *)
Definition removePeerConnection (peerKey : string) (e : Engine)
  : option error * Engine :=
  match conns e !! peerKey with
  | Some conn => ((Close conn).2, set_conns (delete peerKey (conns e)) e)
  | None => (None, e)
  end.

(** [removePeerConnections], under [peerMux]: stops at the first error. *)
Fixpoint removePeerConnections (peers : list string) (e : Engine)
  : option error * Engine :=
  match peers with
  | [] => (None, e)
  | peer :: rest =>
      match removePeerConnection peer e with
      | (Some err, e1) => (Some err, e1)
      | (None, e1) => removePeerConnections rest e1
      end
  end.

(** [strings.Join]. *)
Fixpoint Join (elems : list string) (sep : string) : string :=
  match elems with
  | [] => ""
  | [x] => x
  | x :: rest => x ++ sep ++ Join rest sep
  end.

(** The first half of [openPeerConnection], under [peerMux]: a connection
    is built and stored under the text of the parsed key. *)
Definition openPeerConnection_register (peer : Peer) (e : Engine) : Engine :=
  let remoteKey := ParseKey_String (WgPubKey peer) in
  let connConfig :=
    {| WgListenPort := wgPort e;
       WgPeerIP := WgAddr (config e);
       ConnConfig_WgIface := WgIface (config e);
       WgAllowedIPs := WgAllowedIps peer;
       WgKey := WgPrivateKey (config e);
       RemoteWgKey := remoteKey;
       StunTurnURLS := StunsTurns (config e);
       iFaceBlackList := IFaceBlackList (config e) |} in
  let conn := NewConnection connConfig in
  set_conns (<[remoteKey := conn]> (conns e)) e.

(** The message [signalCandidate] sends: [Key] is the sender's public key,
    [RemoteKey] the key of the peer it is meant for. *)
Definition signalCandidate_message (payload : string) (myKey remoteKey : string)
  : Message :=
  {| Message_Key := PublicKey myKey;
     Message_RemoteKey := remoteKey;
     Message_Body := {| Body_Type_of := Body_CANDIDATE; Body_Payload := payload |} |}.

(** What [operation] of [initializePeer] decides, under [peerMux], once
    [openPeerConnection] has returned [err]: [None] ends the retry loop,
    [Some err] asks [backoff.Retry] for another attempt. *)
Definition operation_result (peer : Peer) (err : option error) (e : Engine)
  : option error :=
  match conns e !! WgPubKey peer with
  | None => None
  | Some _ => err
  end.

(** ** The handler of the management stream

    The function passed to [mgmClient.Sync], under [syncMsgMux]. It returns
    its error, the engine afterwards and the peers it started an
    initializer for with [go e.initializePeer(...)]. *)
Definition receiveManagementEvents_handler (update : SyncResponse) (e : Engine)
  : option error * Engine * list Peer :=
  let remotePeers := RemotePeers update in
  if decide (length remotePeers ≠ 0) then
    let remotePeerMap : gset string :=
      list_to_set (RemotePeerConfig_WgPubKey <$> remotePeers) in
    let toRemove := filter (fun p => p ∉ remotePeerMap) (rangeKeys (conns e)) in
    match removePeerConnections toRemove e with
    | (Some err, e1) => (Some err, e1, [])
    | (None, e1) =>
        (None, e1,
         (fun peer =>
            {| WgPubKey := RemotePeerConfig_WgPubKey peer;
               WgAllowedIps := Join (RemotePeerConfig_AllowedIps peer) "," |})
         <$> filter (fun peer => conns e1 !! RemotePeerConfig_WgPubKey peer = None)
                    remotePeers)
    end
  else (None, e, []).

(** ** The handler of the signal stream

    The function passed to [signal.Receive], under [syncMsgMux]. *)
Definition receiveSignalEvents_handler (msg : Message) (e : Engine)
  : option error * Engine :=
  match conns e !! Message_Key msg with
  | None => (Some ("wrongly addressed message " ++ Message_Key msg), e)
  | Some conn =>
      if negb (String.eqb (RemoteWgKey (Config conn)) (Message_Key msg)) then
        (Some ("unknown peer " ++ Message_Key msg), e)
      else
        let store c := set_conns (<[Message_Key msg := c]> (conns e)) e in
        match Body_Type_of (Message_Body msg) with
        | Body_OFFER =>
            match UnMarshalCredential msg with
            | inr err => (Some err, e)
            | inl remoteCred =>
                let r := OnOffer conn {| uFrag := uFrag remoteCred;
                                         pwd := pwd remoteCred |} in
                (r.2, store r.1)
            end
        | Body_ANSWER =>
            match UnMarshalCredential msg with
            | inr err => (Some err, e)
            | inl remoteCred =>
                let r := OnAnswer conn {| uFrag := uFrag remoteCred;
                                          pwd := pwd remoteCred |} in
                (r.2, store r.1)
            end
        | Body_CANDIDATE =>
            match UnmarshalCandidate (Body_Payload (Message_Body msg)) with
            | inr err => (Some err, e)
            | inl candidate =>
                let r := OnRemoteCandidate conn candidate in
                (r.2, store r.1)
            end
        | Body_UNKNOWN => (None, e)
        end
  end.

(** ** The engine with its initializers

    Each [go e.initializePeer(peer)] is a task that runs [operation] under
    [backoff.Retry]. Its atomic actions are the blocks it executes while it
    holds [peerMux]; between them it sits in [conn.Open] or in the back-off
    sleep, and the stream handlers run. *)
Inductive Pc :=
  | AtOpen                       (* about to call openPeerConnection *)
  | InOpen                       (* entry stored, blocked in conn.Open *)
  | AtCheck (err : option error) (* Open returned, about to check conns *)
  | Exited.                      (* backoff.Retry returned *)

Record Initializer := { init_peer : Peer; init_pc : Pc }.

Record System := { engine : Engine; inits : list Initializer }.

Inductive Event :=
  | Update (update : SyncResponse)       (* the management handler runs *)
  | Signal (msg : Message)               (* the signal handler runs *)
  | Run (i : nat)                        (* initializer i takes its next action *)
  | OpenReturns (i : nat) (err : option error). (* its conn.Open returns *)

Definition runInitializer (t : Initializer) (e : Engine) : Initializer * Engine :=
  match init_pc t with
  | AtOpen =>
      ({| init_peer := init_peer t; init_pc := InOpen |},
       openPeerConnection_register (init_peer t) e)
  | AtCheck err =>
      match operation_result (init_peer t) err e with
      | None => ({| init_peer := init_peer t; init_pc := Exited |}, e)
      | Some _ => ({| init_peer := init_peer t; init_pc := AtOpen |}, e)
      end
  | InOpen | Exited => (t, e)
  end.

Definition step (ev : Event) (s : System) : System :=
  match ev with
  | Update update =>
      let '(_, e1, spawned) := receiveManagementEvents_handler update (engine s) in
      {| engine := e1;
         inits := (inits s ++
                   ((fun p => {| init_peer := p; init_pc := AtOpen |}) <$> spawned))%list |}
  | Signal msg =>
      {| engine := (receiveSignalEvents_handler msg (engine s)).2;
         inits := inits s |}
  | Run i =>
      match inits s !! i with
      | Some t =>
          let '(t1, e1) := runInitializer t (engine s) in
          {| engine := e1; inits := <[i := t1]> (inits s) |}
      | None => s
      end
  | OpenReturns i err =>
      match inits s !! i with
      | Some {| init_peer := p; init_pc := InOpen |} =>
          {| engine := engine s;
             inits := <[i := {| init_peer := p; init_pc := AtCheck err |}]> (inits s) |}
      | _ => s
      end
  end.

Definition run (evs : list Event) (s : System) : System :=
  foldl (fun s ev => step ev s) s evs.

End engine.

Arguments Engine : clear implicits.
Arguments System : clear implicits.

(** ** A connection to run the engine with

    The connection of section 4.4, as far as the engine drives it, to
    instantiate the interface above in the scenarios. *)

(** Modelled from the spec: the states of the connection state machine of
    section 4.4 (Answering is passed through within one step). *)
Inductive SMState := Idle | Offering | Negotiating | Connected | Closed.

(** Modelled from the spec: a connection, its configuration and its state. *)
Record SMConnection := { SM_Config : ConnConfig; SM_State : SMState }.

Definition SM_set (st : SMState) (c : SMConnection) : SMConnection :=
  {| SM_Config := SM_Config c; SM_State := st |}.

(** Modelled from the spec: "Idle | remote OFFER arrives | Answering;
    emits ANSWER; -> Negotiating"; in any other state the offer changes
    nothing. *)
Definition SM_OnOffer (c : SMConnection) (_ : IceCredentials)
  : SMConnection * option error :=
  match SM_State c with
  | Idle => (SM_set Negotiating c, None)
  | _ => (c, None)
  end.

(** Modelled from the spec: "Offering | remote ANSWER arrives |
    Negotiating"; in any other state the answer changes nothing. *)
Definition SM_OnAnswer (c : SMConnection) (_ : IceCredentials)
  : SMConnection * option error :=
  match SM_State c with
  | Offering => (SM_set Negotiating c, None)
  | _ => (c, None)
  end.

Fixpoint splitColon (s : string) : option (string * string) :=
  match s with
  | EmptyString => None
  | String c rest =>
      if Ascii.eqb c ":" then Some (EmptyString, rest)
      else match splitColon rest with
           | Some (a, b) => Some (String c a, b)
           | None => None
           end
  end.

(** Modelled from the spec: offers and answers "carry an ICE credential
    {uFrag, pwd}", here as the text "uFrag:pwd". *)
Definition SM_UnMarshalCredential (msg : Message) : IceCredentials + error :=
  match splitColon (Body_Payload (Message_Body msg)) with
  | Some (u, p) => inl {| uFrag := u; pwd := p |}
  | None => inr "error parsing message body"
  end.

(** Modelled from the spec: candidates "carry the opaque wire form of one
    ICE candidate", here any non-empty text. *)
Definition SM_UnmarshalCandidate (raw : string) : string + error :=
  if String.eqb raw "" then inr "unable to parse candidate" else inl raw.

Definition SM_rangeKeys (m : gmap string SMConnection) : list string :=
  (map_to_list m).*1.

Lemma SM_rangeKeys_NoDup (m : gmap string SMConnection) : NoDup (SM_rangeKeys m).
Proof. apply NoDup_fst_map_to_list. Qed.

Lemma SM_rangeKeys_spec (m : gmap string SMConnection) (k : string) :
  k ∈ SM_rangeKeys m ↔ is_Some (m !! k).
Proof.
  unfold SM_rangeKeys. rewrite list_elem_of_fmap. split.
  - intros [[k' c] [-> Hin]]. apply elem_of_map_to_list in Hin. by exists c.
  - intros [c Hc]. exists (k, c). split; [done|]. by apply elem_of_map_to_list.
Qed.

(** Modelled from the spec: a new connection is Idle, [Close] ends in
    Closed, a remote candidate is fed to the ICE agent and leaves the
    state alone. Keys in the scenarios stand for well-formed keys, so
    parsing and printing one gives it back. *)
#[global] Instance SM_Externals : Externals SMConnection string := {|
  NewConnection cfg := {| SM_Config := cfg; SM_State := Idle |};
  Config := SM_Config;
  Close c := (SM_set Closed c, None);
  OnOffer := SM_OnOffer;
  OnAnswer := SM_OnAnswer;
  OnRemoteCandidate c _ := (c, None);
  UnMarshalCredential := SM_UnMarshalCredential;
  UnmarshalCandidate := SM_UnmarshalCandidate;
  ParseKey_String s := s;
  PublicKey s := "pub:" ++ s;
  rangeKeys := SM_rangeKeys;
  rangeKeys_NoDup := SM_rangeKeys_NoDup;
  rangeKeys_spec := SM_rangeKeys_spec |}.

(** ** The system between two updates *)

(** An event other than an update from the Management Service. *)
Definition noUpdate (ev : Event) : Prop :=
  match ev with Update _ => False | _ => True end.

Section engine_attempts.
Context {Connection Candidate : Type} `{!Externals Connection Candidate}.

(** What holds of the system from an update that lists the keys [K] until
    the next update, when it holds at the start: [conns] has listed keys
    only, the keys of the initializers print back as they were given, and
    an initializer about to make an attempt is one for a listed key. *)
Definition settled (K : gset string) (s : System Connection) : Prop :=
  dom (conns (engine s)) ⊆ K
  ∧ (∀ t, t ∈ inits s →
          ParseKey_String (WgPubKey (init_peer t)) = WgPubKey (init_peer t))
  ∧ (∀ t, t ∈ inits s → init_pc t = AtOpen → WgPubKey (init_peer t) ∈ K).

End engine_attempts.

(** ** A connection whose [Close] can fail, and a parser that rejects

    Another implementation of the interface, to run the engine where
    [Close] returns an error and where a key does not parse. [Close] fails
    on a connection that is closed already. The parser takes a text of 44
    characters, the length of a base64 key, for a key and gives the zero
    key for any other text, as [wgtypes.ParseKey] does next to its
    error. *)
Record StrictConnection := { Strict_Config : ConnConfig; Strict_Closed : bool }.

Definition zeroKeyText : string := "AAAAAAAAAAAAAAAAAAAAAAAAAAAAAAAAAAAAAAAAAAA=".

Definition Strict_ParseKey_String (s : string) : string :=
  if Nat.eqb (String.length s) 44 then s else zeroKeyText.

Definition Strict_Close (c : StrictConnection) : StrictConnection * option error :=
  if Strict_Closed c then (c, Some "connection already closed")
  else ({| Strict_Config := Strict_Config c; Strict_Closed := true |}, None).

Definition keysOf {A} (m : gmap string A) : list string := (map_to_list m).*1.

Lemma keysOf_NoDup {A} (m : gmap string A) : NoDup (keysOf m).
Proof. apply NoDup_fst_map_to_list. Qed.

Lemma keysOf_spec {A} (m : gmap string A) (k : string) :
  k ∈ keysOf m ↔ is_Some (m !! k).
Proof.
  unfold keysOf. rewrite list_elem_of_fmap. split.
  - intros [[k' c] [-> Hin]]. apply elem_of_map_to_list in Hin. by exists c.
  - intros [c Hc]. exists (k, c). split; [done|]. by apply elem_of_map_to_list.
Qed.

#[global] Instance Strict_Externals : Externals StrictConnection string := {|
  NewConnection cfg := {| Strict_Config := cfg; Strict_Closed := false |};
  Config := Strict_Config;
  Close := Strict_Close;
  OnOffer c _ := (c, None);
  OnAnswer c _ := (c, None);
  OnRemoteCandidate c _ := (c, None);
  UnMarshalCredential := SM_UnMarshalCredential;
  UnmarshalCandidate := SM_UnmarshalCandidate;
  ParseKey_String := Strict_ParseKey_String;
  PublicKey s := "pub:" ++ s;
  rangeKeys := keysOf;
  rangeKeys_NoDup := keysOf_NoDup;
  rangeKeys_spec := keysOf_spec |}.

End internal.

(* ===================================================================== *)
(** * Part II, continued: iface (the WireGuard interface)                 *)
(* ===================================================================== *)

Module iface.

Definition error := string.

(** [wgtypes.Key], [net.IPNet] and [net.UDPAddr], each by its text. *)
Definition Key := string.
Definition IPNet := string.
Definition UDPAddr := string.

(** [wgtypes.PeerConfig], the fields the package sets; the others keep
    their zero value. *)
Record PeerConfig := {
  PublicKey : Key;
  UpdateOnly : bool;
  Endpoint : option UDPAddr;
  PersistentKeepaliveInterval : option Z;
  ReplaceAllowedIPs : bool;
  AllowedIPs : list IPNet }.

(** [wgtypes.Config]. *)
Record Config := {
  PrivateKey : option Key;
  ListenPort : option Z;
  FirewallMark : option Z;
  ReplacePeers : bool;
  Peers : list PeerConfig }.

(** [wgtypes.Device], the field the package reads. *)
Record Device := { Device_ListenPort : Z }.

(** ** The host

    What the package does to the machine goes through [wgctrl], [net] and
    the key generator. Each such call is recorded, with what it returned,
    in the order the calls are made. *)
Inductive Event :=
  | EvNew (r : option error)                 (* wgctrl.New *)
  | EvClose                                  (* wg.Close *)
  | EvDevice (name : string) (r : Device + error)                    (* wg.Device *)
  | EvConfigureDevice (name : string) (cfg : Config) (r : option error)
                                             (* wg.ConfigureDevice *)
  | EvResolveUDPAddr (address : string) (r : UDPAddr + error)
                                             (* net.ResolveUDPAddr("udp4", _) *)
  | EvGeneratePrivateKey (r : Key + error).  (* wgtypes.GeneratePrivateKey *)

(** The host answers a call from what has happened so far. Parsing a key
    and parsing a network are functions of the text; [wgtypes.ParseKey]
    returns a key also when it returns an error. *)
Class Host := {
  host_New : list Event → option error;
  host_Device : list Event → string → Device + error;
  host_ConfigureDevice : list Event → string → Config → option error;
  host_ResolveUDPAddr : list Event → string → UDPAddr + error;
  host_GeneratePrivateKey : list Event → Key + error;
  wgtypes_ParseKey : string → Key * option error;
  netlink_ParseIPNet : string → IPNet + error }.

(** ** ifname *)

(** Go's [copy(dst, src)]: the first [min (len dst) (len src)] elements of
    [dst] are overwritten. *)
Definition copy (dst src : list byte) : list byte :=
  (take (length dst) src ++ drop (length src) dst)%list.

Definition ifname (n : string) : list byte :=
  let b := replicate 16 x00 in
  copy b (list_byte_of_string (n ++ String Ascii.zero EmptyString)).

Section iface_functions.
Context `{Host}.

Definition M (A : Type) : Type := list Event → A * list Event.

Definition wgctrl_New : M (option error) := λ t,
  let r := host_New t in (r, (t ++ [EvNew r])%list).

Definition Client_Close : M unit := λ t, (tt, (t ++ [EvClose])%list).

Definition Client_Device (name : string) : M (Device + error) := λ t,
  let r := host_Device t name in (r, (t ++ [EvDevice name r])%list).

Definition Client_ConfigureDevice (name : string) (cfg : Config)
  : M (option error) := λ t,
  let r := host_ConfigureDevice t name cfg in
  (r, (t ++ [EvConfigureDevice name cfg r])%list).

Definition net_ResolveUDPAddr (address : string) : M (UDPAddr + error) := λ t,
  let r := host_ResolveUDPAddr t address in
  (r, (t ++ [EvResolveUDPAddr address r])%list).

Definition wgtypes_GeneratePrivateKey : M (Key + error) := λ t,
  let r := host_GeneratePrivateKey t in (r, (t ++ [EvGeneratePrivateKey r])%list).

(** The opening of every function of the package that talks to WireGuard:
    [wg, err := wgctrl.New(); if err != nil { return ... err };
    defer wg.Close()], then the body. *)
Definition withClient {A} (failed : error → A) (body : M A) : M A := λ t,
  let '(err, t) := wgctrl_New t in
  match err with
  | Some err => (failed err, t)
  | None =>
      let '(a, t) := body t in
      let '(_, t) := Client_Close t in
      (a, t)
  end.

Definition Configure (iface : string) (privateKey : string) : M (option error) :=
  withClient Some (λ t,
    match wgtypes_ParseKey privateKey with
    | (_, Some err) => (Some err, t)
    | (key, None) =>
        let fwmark := 0%Z in
        let cfg := {| PrivateKey := Some key;
                      ListenPort := None;
                      FirewallMark := Some fwmark;
                      ReplacePeers := false;
                      Peers := [] |} in
        let '(err, t) := Client_ConfigureDevice iface cfg t in
        match err with
        | Some err => (Some err, t)
        | None => (None, t)
        end
    end).

(** The key is returned whether or not [Configure] fails. *)
Definition ConfigureWithKeyGen (iface : string) : M (option Key * option error) :=
  λ t,
  let '(r, t) := wgtypes_GeneratePrivateKey t in
  match r with
  | inr err => ((None, Some err), t)
  | inl key =>
      let '(err, t) := Configure iface key t in
      ((Some key, err), t)
  end.

Definition GetListenPort (iface : string) : M (Z + error) :=
  withClient inr (λ t,
    let '(d, t) := Client_Device iface t in
    match d with
    | inr err => (inr err, t)
    | inl d => (inl (Device_ListenPort d), t)
    end).

Definition UpdateListenPort (iface : string) (newPort : Z) : M (option error) :=
  withClient Some (λ t,
    let '(d, t) := Client_Device iface t in
    match d with
    | inr err => (Some err, t)
    | inl _ =>
        let config := {| PrivateKey := None;
                         ListenPort := Some newPort;
                         FirewallMark := None;
                         ReplacePeers := false;
                         Peers := [] |} in
        let '(err, t) := Client_ConfigureDevice iface config t in
        match err with
        | Some err => (Some err, t)
        | None => (None, t)
        end
    end).

Definition UpdatePeerEndpoint (iface : string) (peerKey : string)
    (newEndpoint : string) : M (option error) :=
  withClient Some (λ t,
    let '(d, t) := Client_Device iface t in
    match d with
    | inr err => (Some err, t)
    | inl _ =>
        let '(peerAddr, t) := net_ResolveUDPAddr newEndpoint t in
        match peerAddr with
        | inr err => (Some err, t)
        | inl peerAddr =>
            let peerKeyParsed := (wgtypes_ParseKey peerKey).1 in
            let peer := {| PublicKey := peerKeyParsed;
                           UpdateOnly := true;
                           Endpoint := Some peerAddr;
                           PersistentKeepaliveInterval := None;
                           ReplaceAllowedIPs := false;
                           AllowedIPs := [] |} in
            let config := {| PrivateKey := None;
                             ListenPort := None;
                             FirewallMark := None;
                             ReplacePeers := false;
                             Peers := [peer] |} in
            let '(err, t) := Client_ConfigureDevice iface config t in
            match err with
            | Some err => (Some err, t)
            | None => (None, t)
            end
        end
    end).

(** The peer [UpdatePeer] configures. *)
Definition UpdatePeer_peer (peerKey : string) (ipNet : IPNet) (keepAlive : Z)
  : PeerConfig :=
  {| PublicKey := (wgtypes_ParseKey peerKey).1;
     UpdateOnly := false;
     Endpoint := None;
     PersistentKeepaliveInterval := Some keepAlive;
     ReplaceAllowedIPs := true;
     AllowedIPs := [ipNet] |}.

Definition UpdatePeer (iface : string) (peerKey : string) (allowedIps : string)
    (keepAlive : Z) (endpoint : string) : M (option error) :=
  withClient Some (λ t,
    let '(d, t) := Client_Device iface t in
    match d with
    | inr err => (Some err, t)
    | inl _ =>
        match netlink_ParseIPNet allowedIps with
        | inr err => (Some err, t)
        | inl ipNet =>
            let peer := UpdatePeer_peer peerKey ipNet keepAlive in
            let config := {| PrivateKey := None;
                             ListenPort := None;
                             FirewallMark := None;
                             ReplacePeers := false;
                             Peers := [peer] |} in
            let '(err, t) := Client_ConfigureDevice iface config t in
            match err with
            | Some err => (Some err, t)
            | None =>
                if decide (endpoint ≠ "") then
                  UpdatePeerEndpoint iface peerKey endpoint t
                else (None, t)
            end
        end
    end).

End iface_functions.

(** ** Reading a record of calls *)

(** Clients opened ([wgctrl.New] returned no error) and clients closed. *)
Fixpoint opened (evs : list Event) : nat :=
  match evs with
  | [] => 0
  | EvNew None :: evs => S (opened evs)
  | _ :: evs => opened evs
  end.

Fixpoint closed (evs : list Event) : nat :=
  match evs with
  | [] => 0
  | EvClose :: evs => S (closed evs)
  | _ :: evs => closed evs
  end.

(** The configurations sent to WireGuard, with the interface named and the
    error returned. *)
Definition configured (evs : list Event) : list (string * Config * option error) :=
  omap (λ ev, match ev with
              | EvConfigureDevice name cfg r => Some (name, cfg, r)
              | _ => None
              end) evs.

(** A configuration that is for the interface [iface], leaves the peers it
    does not name in place and names one peer at most. *)
Definition additive (iface : string) (c : string * Config * option error) : Prop :=
  c.1.1 = iface ∧ ReplacePeers c.1.2 = false ∧ (length (Peers c.1.2) ≤ 1)%nat.

End iface.

(* ===================================================================== *)
(** * Part II, continued: cmd (the login command)                         *)
(* ===================================================================== *)

Module cmd.

(** An error: one that carries a gRPC status, or any other. *)
Inductive error :=
  | StatusError (code : N) (msg : string)
  | OtherError (msg : string).

Definition codes_Unknown : N := 2.
Definition codes_PermissionDenied : N := 7.

(** [status.FromError] of an error that is not nil: the code of the status
    and whether the error carries one. *)
Definition status_FromError (err : error) : N * bool :=
  match err with
  | StatusError code _ => (code, true)
  | OtherError _ => (codes_Unknown, false)
  end.

(** [wgtypes.Key], by its text. *)
Definition Key := string.

(** [url.URL], the fields read. *)
Record URL := { Scheme : string; Host : string }.

(** [internal.Config], the fields read. *)
Record Config := { PrivateKey : string; ManagementURL : URL }.

(** ** The world of the command

    The calls made to the Management Service client and to
    [internal.GetConfig], in order and with what they returned; the lines
    of standard input not yet read and the error the scanner reports when
    they are used up (nil at the end of the input); what has been
    printed. *)
Inductive Event (LoginResponse : Type) :=
  | EvGetConfig (managementURL configPath : string) (r : Config + error)
  | EvNewClient (host : string) (key : Key) (tls : bool) (r : option error)
  | EvGetServerPublicKey (r : Key + error)
  | EvLogin (serverKey : Key) (r : LoginResponse + error)
  | EvRegister (serverKey : Key) (setupKey : string) (r : LoginResponse + error)
  | EvClose (r : option error).

Arguments EvGetConfig {LoginResponse}.
Arguments EvNewClient {LoginResponse}.
Arguments EvGetServerPublicKey {LoginResponse}.
Arguments EvLogin {LoginResponse}.
Arguments EvRegister {LoginResponse}.
Arguments EvClose {LoginResponse}.

Record World (LoginResponse : Type) := {
  events : list (Event LoginResponse);
  stdin : list string;
  stdin_err : option error;
  stdout : list string }.

Arguments events {LoginResponse}.
Arguments stdin {LoginResponse}.
Arguments stdin_err {LoginResponse}.
Arguments stdout {LoginResponse}.

(** The services answer a call from what has happened so far;
    [uuid.Parse], [UUID.String] and [wgtypes.ParseKey] are functions of
    their argument. *)
Class Service (LoginResponse UUID : Type) := {
  service_GetConfig : list (Event LoginResponse) → string → string → Config + error;
  service_NewClient : list (Event LoginResponse) → string → Key → bool → option error;
  service_GetServerPublicKey : list (Event LoginResponse) → Key + error;
  service_Login : list (Event LoginResponse) → Key → LoginResponse + error;
  service_Register : list (Event LoginResponse) → Key → string → LoginResponse + error;
  service_Close : list (Event LoginResponse) → option error;
  uuid_Parse : string → UUID + error;
  uuid_String : UUID → string;
  wgtypes_ParseKey : string → Key + error }.

Section cmd_functions.
Context {LoginResponse UUID : Type} `{!Service LoginResponse UUID}.

Definition M (A : Type) : Type := World LoginResponse → A * World LoginResponse.

Definition record (ev : Event LoginResponse) (w : World LoginResponse)
  : World LoginResponse :=
  {| events := (events w ++ [ev])%list; stdin := stdin w;
     stdin_err := stdin_err w; stdout := stdout w |}.

Definition Print (s : string) (w : World LoginResponse) : World LoginResponse :=
  {| events := events w; stdin := stdin w; stdin_err := stdin_err w;
     stdout := (stdout w ++ [s])%list |}.

Definition set_stdin (lines : list string) (w : World LoginResponse)
  : World LoginResponse :=
  {| events := events w; stdin := lines; stdin_err := stdin_err w;
     stdout := stdout w |}.

Definition internal_GetConfig (managementURL configPath : string)
  : M (Config + error) := λ w,
  let r := service_GetConfig (events w) managementURL configPath in
  (r, record (EvGetConfig managementURL configPath r) w).

Definition mgm_NewClient (host : string) (key : Key) (tls : bool)
  : M (option error) := λ w,
  let r := service_NewClient (events w) host key tls in
  (r, record (EvNewClient host key tls r) w).

Definition Client_GetServerPublicKey : M (Key + error) := λ w,
  let r := service_GetServerPublicKey (events w) in
  (r, record (EvGetServerPublicKey r) w).

Definition Client_Login (serverKey : Key) : M (LoginResponse + error) := λ w,
  let r := service_Login (events w) serverKey in (r, record (EvLogin serverKey r) w).

Definition Client_Register (serverKey : Key) (setupKey : string)
  : M (LoginResponse + error) := λ w,
  let r := service_Register (events w) serverKey setupKey in
  (r, record (EvRegister serverKey setupKey r) w).

Definition Client_Close : M (option error) := λ w,
  let r := service_Close (events w) in (r, record (EvClose r) w).

(** ** promptPeerSetupKey *)

(** What [fmt.Println] prints for a line that is empty. *)
Definition complaint : string := "Specified key is empty, try again:
".

(** The loop [for s.Scan() { ... }] over the lines still to be read. *)
Fixpoint promptPeerSetupKey_scan (lines : list string) (w : World LoginResponse)
  : (string * option error) * World LoginResponse :=
  match lines with
  | [] => (("", stdin_err w), set_stdin [] w)
  | input :: lines =>
      if decide (input ≠ "") then ((input, None), set_stdin lines w)
      else promptPeerSetupKey_scan lines (Print complaint w)
  end.

Definition promptPeerSetupKey : M (string * option error) := λ w,
  let w := Print "Enter setup key: " w in
  promptPeerSetupKey_scan (stdin w) w.

(** ** registerPeer *)

Definition registerPeer (serverPublicKey : Key) (setupKey : string)
  : M (LoginResponse + error) := λ w,
  let '((setupKey, err), w) :=
    if decide (setupKey = "") then promptPeerSetupKey w
    else ((setupKey, None), w) in
  match err with
  | Some err => (inr err, w)
  | None =>
      match uuid_Parse setupKey with
      | inr err => (inr err, w)
      | inl validSetupKey =>
          let '(r, w) :=
            Client_Register serverPublicKey (uuid_String validSetupKey) w in
          match r with
          | inr err => (inr err, w)
          | inl loginResp => (inl loginResp, w)
          end
      end
  end.

(** ** loginPeer *)

Definition loginPeer (serverPublicKey : Key) (setupKey : string)
  : M (LoginResponse + error) := λ w,
  let '(r, w) := Client_Login serverPublicKey w in
  match r with
  | inr err =>
      let '(code, ok) := status_FromError err in
      if ok && (code =? codes_PermissionDenied)%N then
        registerPeer serverPublicKey setupKey w
      else (inr err, w)
  | inl loginResp => (inl loginResp, w)
  end.

(** ** loginCmd

    The function [RunE] of the command; [setupKey], [managementURL] and
    [configPath] are the package's variables the flags fill. *)
Definition loginCmd_RunE (setupKey managementURL configPath : string)
  : M (option error) := λ w,
  let '(config, w) := internal_GetConfig managementURL configPath w in
  match config with
  | inr err => (Some err, w)
  | inl config =>
      match wgtypes_ParseKey (PrivateKey config) with
      | inr err => (Some err, w)
      | inl myPrivateKey =>
          let mgmTlsEnabled :=
            bool_decide (Scheme (ManagementURL config) = "https") in
          let '(err, w) :=
            mgm_NewClient (Host (ManagementURL config)) myPrivateKey
                          mgmTlsEnabled w in
          match err with
          | Some err => (Some err, w)
          | None =>
              let '(serverKey, w) := Client_GetServerPublicKey w in
              match serverKey with
              | inr err => (Some err, w)
              | inl serverKey =>
                  let '(r, w) := loginPeer serverKey setupKey w in
                  match r with
                  | inr err => (Some err, w)
                  | inl _ =>
                      let '(err, w) := Client_Close w in
                      match err with
                      | Some err => (Some err, w)
                      | None => (None, w)
                      end
                  end
              end
          end
      end
  end.

End cmd_functions.

Arguments World : clear implicits.

(** An event other than the closing of the client. *)
Definition noClose {LoginResponse} (ev : Event LoginResponse) : Prop :=
  match ev with EvClose _ => False | _ => True end.

End cmd.

(* ===================================================================== *)
(** * Sample states (the scenarios of section 8)                          *)
(* ===================================================================== *)

Module iface_samples.
Import iface.

Definition zeroKey : Key := "AAAAAAAAAAAAAAAAAAAAAAAAAAAAAAAAAAAAAAAAAAA=".
Definition someKey : Key := "mJ3Qw1Zr8sT5uV7xY9zA2bC4dE6fG8hJ0kL2mN4pQ6s=".

(** A machine with one WireGuard interface, wt0, on which every call
    succeeds; one endpoint resolves, one network parses, and a key is a
    text of 44 characters. *)
Definition host0 : Host := {|
  host_New _ := None;
  host_Device _ name :=
    if String.eqb name "wt0" then inl {| Device_ListenPort := 51820 |}
    else inr "no such device";
  host_ConfigureDevice _ _ _ := None;
  host_ResolveUDPAddr _ address :=
    if String.eqb address "203.0.113.7:51820" then inl address
    else inr "missing port in address";
  host_GeneratePrivateKey _ := inl someKey;
  wgtypes_ParseKey s :=
    if Nat.eqb (String.length s) 44 then (s, None)
    else (zeroKey, Some "wgtypes: incorrect key size");
  netlink_ParseIPNet s :=
    if String.eqb s "10.0.0.2/32" then inl s else inr "invalid CIDR address" |}.

End iface_samples.

Module cmd_samples.
Import cmd.

Definition K : string := "a2c8e62b-38f5-4553-b31e-dd66c696cebb".

(** A Management Service that does not know the peer and takes the setup
    key [K]; a UUID is a text of 36 characters, held as that text. *)
Definition service0 : Service string string := {|
  service_GetConfig _ _ _ :=
    inl {| PrivateKey := iface_samples.someKey;
           ManagementURL := {| Scheme := "https"; Host := "api.example.org:33073" |} |};
  service_NewClient _ _ _ _ := None;
  service_GetServerPublicKey _ := inl "ServerKey";
  service_Login _ _ :=
    inr (StatusError codes_PermissionDenied "peer is not registered");
  service_Register _ _ setupKey :=
    if String.eqb setupKey K then inl "registered"
    else inr (StatusError 5 "unknown setup key");
  service_Close _ := None;
  uuid_Parse s :=
    if Nat.eqb (String.length s) 36 then inl s
    else inr (OtherError "invalid UUID length");
  uuid_String u := u;
  wgtypes_ParseKey s :=
    if Nat.eqb (String.length s) 44 then inl s
    else inr (OtherError "wgtypes: incorrect key size") |}.

(** The user hits return twice, then types the key. *)
Definition world_typed : World string :=
  {| events := []; stdin := [""; ""; K; "more"]; stdin_err := None; stdout := [] |}.

(** The input ends after one empty line. *)
Definition world_eof : World string :=
  {| events := []; stdin := [""]; stdin_err := None; stdout := [] |}.

End cmd_samples.

Module server_samples.
Import server.

Definition meta0 : PeerSystemMeta :=
  {| Hostname := "host"; GoOS := "linux"; Kernel := "Linux"; Core := "5.10";
     Platform := "x86_64"; OS := "Debian"; WtVersion := "0.1" |}.

(** The peer an agent proposes: its key, name and machine metadata. *)
Definition proposed (key name : string) : Peer :=
  {| Peer_Key := key; Peer_SetupKey := ""; Peer_IP := None;
     Peer_Meta := meta0; Peer_Name := name; Peer_Status := None |}.

(** Setup key K: limit 5, usage 0, unexpired. *)
Definition K : SetupKey :=
  {| SetupKey_Key := "K"; SetupKey_UsedTimes := 0%N; SetupKey_UsageLimit := 5%N;
     SetupKey_ExpiresAt := 1000%Z; SetupKey_Revoked := false |}.

Definition account_of (net : IPNet) (sk : SetupKey) (peers : gmap string Peer)
  : Account :=
  {| Account_Id := "A";
     Account_SetupKeys := {[ SetupKey_Key sk := sk ]};
     Account_Network := {| Network_Net := net; Network_LastIP := None |};
     Account_Peers := peers |}.

Definition net24 : IPNet := {| IPNet_IP := ipv4 10 0 0 0; IPNet_ones := 24%N |}.

Definition net30 : IPNet := {| IPNet_IP := ipv4 10 0 0 0; IPNet_ones := 30%N |}.

(** A fresh coordinator with account A pre-provisioned: CIDR 10.0.0.0/24
    and setup key K. *)
Definition world0 : World :=
  {| statuses := []; accounts := {[ "A" := account_of net24 K ∅ ]} |}.

(** What [newAccount()] would return; the scenarios never take that path. *)
Definition fresh0 : Account * SetupKey :=
  ({| Account_Id := "N";
      Account_SetupKeys := {[ "D" := {| SetupKey_Key := "D"; SetupKey_UsedTimes := 0%N;
                                        SetupKey_UsageLimit := 1%N;
                                        SetupKey_ExpiresAt := 1000%Z;
                                        SetupKey_Revoked := false |} ]};
      Account_Network := {| Network_Net := net24; Network_LastIP := None |};
      Account_Peers := ∅ |},
   {| SetupKey_Key := "D"; SetupKey_UsedTimes := 0%N; SetupKey_UsageLimit := 1%N;
      SetupKey_ExpiresAt := 1000%Z; SetupKey_Revoked := false |}).

(** Scenario 1 has run: P1 registered at time 1. *)
Definition world1 : World :=
  (AddPeer "k" (proposed "P1" "a") 1%Z fresh0 true world0).2.

(** An account on 10.0.0.0/30 whose two host addresses are taken. *)
Definition world_full : World :=
  {| statuses := [ {| LastSeen := 1%Z; Connected := false |};
                   {| LastSeen := 2%Z; Connected := false |} ];
     accounts :=
       {[ "A" := account_of net30 K
            {[ "P1" := {| Peer_Key := "P1"; Peer_SetupKey := "K";
                          Peer_IP := Some (ipv4 10 0 0 1); Peer_Meta := meta0;
                          Peer_Name := "a"; Peer_Status := Some 0%nat |};
               "P2" := {| Peer_Key := "P2"; Peer_SetupKey := "K";
                          Peer_IP := Some (ipv4 10 0 0 2); Peer_Meta := meta0;
                          Peer_Name := "b"; Peer_Status := Some 1%nat |} ]} ]} |}.

(** Setup key K after five registrations: usage 5 of limit 5. *)
Definition K_used_up : SetupKey :=
  {| SetupKey_Key := "K"; SetupKey_UsedTimes := 5%N; SetupKey_UsageLimit := 5%N;
     SetupKey_ExpiresAt := 1000%Z; SetupKey_Revoked := false |}.

Definition world_used_up : World :=
  {| statuses := []; accounts := {[ "A" := account_of net24 K_used_up ∅ ]} |}.

End server_samples.

Module server_samples2.
Import server.

(** Account A with peer P1 (scenario 1 has run) and a second, empty
    account B on 10.1.0.0/24 with a setup key of its own. *)
Definition world_two_accounts : World :=
  {| statuses := statuses server_samples.world1;
     accounts :=
       <[ "B" := {| Account_Id := "B";
                    Account_SetupKeys :=
                      {[ "KB" := {| SetupKey_Key := "KB"; SetupKey_UsedTimes := 0%N;
                                    SetupKey_UsageLimit := 5%N;
                                    SetupKey_ExpiresAt := 1000%Z;
                                    SetupKey_Revoked := false |} ]};
                    Account_Network :=
                      {| Network_Net := {| IPNet_IP := ipv4 10 1 0 0; IPNet_ones := 24%N |};
                         Network_LastIP := None |};
                    Account_Peers := ∅ |} ]>
         (accounts server_samples.world1) |}.

(** Scenarios 1 and 2 have run: P1 and P2 are registered in account A. *)
Definition world12 : World :=
  (AddPeer "K" (server_samples.proposed "P2" "b") 2%Z server_samples.fresh0 true
           server_samples.world1).2.

(** The public key of P1 is registered a second time, into account B. *)
Definition world_P1_twice : World :=
  (AddPeer "kb" (server_samples.proposed "P1" "b") 2%Z server_samples.fresh0 true
           world_two_accounts).2.

(** The full network of account A after a third registration. *)
Definition world_full3 : World :=
  (AddPeer "K" (server_samples.proposed "P3" "c") 3%Z server_samples.fresh0 true
           server_samples.world_full).2.

End server_samples2.

Module engine_samples.
Import internal.

Definition config0 : EngineConfig :=
  {| StunsTurns := ["stun:stun.example.org:3478"]; WgIface := "wt0";
     WgAddr := "10.0.0.9"; WgPrivateKey := "Me"; IFaceBlackList := ∅ |}.

(** An engine that has started and has no connection yet. *)
Definition engine0 : Engine SMConnection :=
  {| conns := ∅; config := config0; wgPort := 51820 |}.

Definition peerOf (key : string) : Peer :=
  {| WgPubKey := key; WgAllowedIps := "10.0.0.1/32" |}.

Definition remote (key : string) : RemotePeerConfig :=
  {| RemotePeerConfig_WgPubKey := key;
     RemotePeerConfig_AllowedIps := ["10.0.0.1/32"] |}.

(** [conns = {P1}]: the connection to P1 as [openPeerConnection] stores it. *)
Definition engine_P1 : Engine SMConnection :=
  openPeerConnection_register (peerOf "P1") engine0.

(** [conns = {P1, P2}]. *)
Definition engine_P1_P2 : Engine SMConnection :=
  openPeerConnection_register (peerOf "P2") engine_P1.

(** An OFFER sent under P1's key and addressed to someone else. *)
Definition offer_for_someone_else : Message :=
  {| Message_Key := "P1"; Message_RemoteKey := "SomeoneElse";
     Message_Body := {| Body_Type_of := Body_OFFER; Body_Payload := "ufrag:pwd" |} |}.

(** An OFFER sent under a key the engine has no connection for. *)
Definition offer_from_stranger : Message :=
  {| Message_Key := "P7"; Message_RemoteKey := "pub:Me";
     Message_Body := {| Body_Type_of := Body_OFFER; Body_Payload := "ufrag:pwd" |} |}.

Definition system0 : System SMConnection :=
  {| engine := engine0; inits := [] |}.

(** P1 is announced; its initializer stores the connection, [Open] times
    out, and the initializer, finding P1 in [conns], goes for a retry. *)
Definition after_first_attempt : System SMConnection :=
  run [Update {| RemotePeers := [remote "P1"] |};
       Run 0; OpenReturns 0 (Some "timeout"); Run 0] system0.

(** During the back-off sleep an update arrives that lists P2 only. *)
Definition after_removal : System SMConnection :=
  step (Update {| RemotePeers := [remote "P2"] |}) after_first_attempt.

(** The sleep is over and the initializer of P1 makes its next attempt. *)
Definition after_retry : System SMConnection :=
  step (Run 0) after_removal.

(** The other order: the update arrives while the initializer of P1 is in
    [Open]; [Open] then returns and the initializer runs its check. *)
Definition removed_during_Open : System SMConnection :=
  run [Update {| RemotePeers := [remote "P1"] |}; Run 0;
       Update {| RemotePeers := [remote "P2"] |};
       OpenReturns 0 (Some "closed"); Run 0] system0.

End engine_samples.

Module engine_samples2.
Import internal.

Definition closedConnection (key : string) : StrictConnection :=
  {| Strict_Config :=
       {| WgListenPort := 51820; WgPeerIP := "10.0.0.9";
          ConnConfig_WgIface := "wt0"; WgAllowedIPs := "10.0.0.1/32";
          WgKey := "Me"; RemoteWgKey := key;
          StunTurnURLS := ["stun:stun.example.org:3478"];
          iFaceBlackList := ∅ |};
     Strict_Closed := true |}.

(** [conns = {P1, P2}], the connection to P1 being closed already (its
    [Open] has timed out). *)
Definition engine_closed_P1 : Engine StrictConnection :=
  {| conns := {[ "P1" := closedConnection "P1";
                 "P2" := {| Strict_Config := Strict_Config (closedConnection "P2");
                            Strict_Closed := false |} ]};
     config := engine_samples.config0; wgPort := 51820 |}.

Definition strict_engine0 : Engine StrictConnection :=
  {| conns := ∅; config := engine_samples.config0; wgPort := 51820 |}.

(** P1 and P2 have been announced and their initializers are in [Open]. *)
Definition system_P1_P2 : System SMConnection :=
  run [Update {| RemotePeers := [engine_samples.remote "P1";
                                 engine_samples.remote "P2"] |};
       Run 0; Run 1] engine_samples.system0.

(** A peer announced with a text that is not a key. *)
Definition peer_bad_key : Peer :=
  {| WgPubKey := "not-a-key"; WgAllowedIps := "10.0.0.7/32" |}.

(** An OFFER of P1 whose payload is not a credential. *)
Definition offer_malformed : Message :=
  {| Message_Key := "P1"; Message_RemoteKey := "pub:Me";
     Message_Body := {| Body_Type_of := Body_OFFER; Body_Payload := "garbage" |} |}.

(** A message of P1 with a body type the handler has no case for. *)
Definition message_unknown_type : Message :=
  {| Message_Key := "P1"; Message_RemoteKey := "pub:Me";
     Message_Body := {| Body_Type_of := Body_UNKNOWN; Body_Payload := "x" |} |}.

End engine_samples2.

(* ===================================================================== *)
(** * Part III: properties of the Account Manager                         *)
(* ===================================================================== *)

Section server_proofs.
Import server.

(** ** The Store's lookups *)

Lemma accountsWhere_none (P : Account -> Prop) `{!∀ a, Decision (P a)} (w : World) :
  (∀ id a, accounts w !! id = Some a → ¬ P a) →
  accountsWhere P w = [].
Proof.
  intros Hnone. unfold accountsWhere.
  replace (filter (λ ia : string * Account, P ia.2) (accounts w))
    with (∅ : gmap string Account).
  - by rewrite map_to_list_empty.
  - symmetry. apply map_empty. intros id.
    apply map_lookup_filter_None. right. intros a Ha HP. by eapply Hnone.
Qed.

Lemma accountsWhere_unique (P : Account -> Prop) `{!∀ a, Decision (P a)}
    (w : World) (id : string) (a : Account) :
  accounts w !! id = Some a → P a →
  (∀ id' a', accounts w !! id' = Some a' → P a' → id' = id) →
  accountsWhere P w = [a].
Proof.
  intros Ha HP Huniq. unfold accountsWhere.
  replace (filter (λ ia : string * Account, P ia.2) (accounts w))
    with ({[ id := a ]} : gmap string Account).
  - by rewrite map_to_list_singleton.
  - apply map_eq. intros id'. destruct (decide (id' = id)) as [->|Hne].
    + rewrite lookup_singleton_eq. symmetry.
      by apply map_lookup_filter_Some.
    + rewrite lookup_singleton_ne by done. symmetry.
      apply map_lookup_filter_None. right. intros a' Ha' HP'.
      apply Hne. by eapply Huniq.
Qed.

Lemma length_zero_empty (s : string) : String.length s = 0 ↔ s = "".
Proof. destruct s; simpl; split; congruence. Qed.

(** ** What a successful AddPeer did *)

Lemma AddPeer_Done_inv (setupKey : string) (peer : Peer) (now : Time)
    (fresh : Account * SetupKey) (io : bool) (w w' : World) (p : Peer) :
  AddPeer setupKey peer now fresh io w = (Done p, w') →
  ∃ account sk,
    resolves setupKey fresh w account sk
    ∧ IsValid sk now = true
    ∧ io = true
    ∧ p = newPeerOf peer sk
            (AllocatePeerIP (Network_Net (Account_Network account))
                            (takenIpsOf account)).1
            (Some (length (statuses w)))
    ∧ w' = {| statuses := (statuses w ++ [ {| LastSeen := now; Connected := false |} ])%list;
              accounts := <[Account_Id account := withPeer account sk p]> (accounts w) |}.
Proof.
  unfold AddPeer, resolves. intros H. unfold mbind, M_bind in H.
  destruct (decide (String.length (ToUpper setupKey) = 0)) as [Hlen|Hlen].
  - destruct fresh as [account sk]. unfold mret, M_ret in H. simpl in H.
    destruct (IsValid sk now) eqn:Hvalid; simpl in H; [|discriminate].
    unfold orErrorf, Store_SaveAccount in H. destruct io; simpl in H; [|discriminate].
    injection H as <- <-. exists account, sk.
    split; [left; split; [by apply length_zero_empty | done] |].
    repeat split; done.
  - unfold orErrorf, Store_GetAccountBySetupKey in H.
    destruct (accountsWhere (ownsSetupKey (ToUpper setupKey)) w)
      as [|account rest] eqn:Hfind; [discriminate|].
    destruct (getAccountSetupKeyByKey account (ToUpper setupKey)) as [sk|] eqn:Hsk;
      [|discriminate].
    unfold mret, M_ret in H. simpl in H.
    destruct (IsValid sk now) eqn:Hvalid; simpl in H; [|discriminate].
    unfold Store_SaveAccount in H. destruct io; simpl in H; [|discriminate].
    injection H as <- <-. exists account, sk.
    split.
    { right. split; [by rewrite <- length_zero_empty |].
      unfold Store_GetAccountBySetupKey. by rewrite Hfind. }
    repeat split; done.
Qed.

(** ** Setup keys: unknown, invalid, used up *)

Lemma IsValid_false (sk : SetupKey) (now : Time) :
  IsValid sk now = false ↔ invalid sk now.
Proof.
  unfold IsValid, invalid.
  destruct (SetupKey_Revoked sk); simpl; [split; [by left | done]|].
  destruct (Z.ltb_spec (SetupKey_ExpiresAt sk) now) as [Hlt|Hge]; simpl.
  { split; [by right; left | done]. }
  destruct (N.leb_spec (SetupKey_UsageLimit sk) (SetupKey_UsedTimes sk)) as [Hle|Hgt];
    simpl.
  { split; [by right; right | done]. }
  split; [done|]. intros [?|[?|?]]; [done | lia | lia].
Qed.

Lemma AddPeer_unknown_key (setupKey : string) (peer : Peer) (now : Time)
    (fresh : Account * SetupKey) (io : bool) (w : World) :
  ToUpper setupKey ≠ "" →
  (∀ id a, accounts w !! id = Some a →
           Account_SetupKeys a !! ToUpper setupKey = None) →
  AddPeer setupKey peer now fresh io w = (Fail NotFound, w).
Proof.
  intros Hne Hnone. unfold AddPeer, mbind, M_bind.
  destruct (decide (String.length (ToUpper setupKey) = 0)) as [Hlen|Hlen].
  { by apply length_zero_empty in Hlen. }
  unfold orErrorf, Store_GetAccountBySetupKey.
  rewrite accountsWhere_none; [done|].
  intros id a Ha [sk Hsk]. specialize (Hnone id a Ha). congruence.
Qed.

Lemma AddPeer_invalid_key (setupKey : string) (peer : Peer) (now : Time)
    (fresh : Account * SetupKey) (io : bool) (w : World)
    (account : Account) (sk : SetupKey) :
  ToUpper setupKey ≠ "" →
  Store_GetAccountBySetupKey (ToUpper setupKey) w = (Done account, w) →
  getAccountSetupKeyByKey account (ToUpper setupKey) = Some sk →
  invalid sk now →
  AddPeer setupKey peer now fresh io w = (Fail FailedPrecondition, w).
Proof.
  intros Hne Hacc Hsk Hinv. apply IsValid_false in Hinv.
  unfold AddPeer, mbind, M_bind.
  destruct (decide (String.length (ToUpper setupKey) = 0)) as [Hlen|Hlen].
  { by apply length_zero_empty in Hlen. }
  unfold orErrorf. rewrite Hacc, Hsk. unfold mret, M_ret. simpl.
  by rewrite Hinv.
Qed.

Lemma keyState_resolves (K id : string) (w : World) (used limit : N) :
  keyState K id w used limit →
  ∃ a sk,
    accounts w !! id = Some a ∧ Account_Id a = id
    ∧ Store_GetAccountBySetupKey K w = (Done a, w)
    ∧ getAccountSetupKeyByKey a K = Some sk
    ∧ SetupKey_Key sk = K
    ∧ SetupKey_UsedTimes sk = used ∧ SetupKey_UsageLimit sk = limit.
Proof.
  intros (a & sk & Ha & Hid & Hsk & Hkey & Hused & Hlim & Hsole).
  exists a, sk. repeat split; try done.
  unfold Store_GetAccountBySetupKey.
  rewrite (accountsWhere_unique (ownsSetupKey K) w id a); [done | done | | done].
  by exists sk.
Qed.

Lemma AddPeer_keyState (K id : string) (w w' : World) (used limit : N)
    (setupKey : string) (peer : Peer) (now : Time) (fresh : Account * SetupKey)
    (io : bool) (p : Peer) :
  K ≠ "" → ToUpper setupKey = K →
  keyState K id w used limit →
  AddPeer setupKey peer now fresh io w = (Done p, w') →
  keyState K id w' (used + 1) limit.
Proof.
  intros HK Hup Hst Hadd.
  pose proof Hst as (a0 & sk0 & _ & _ & _ & _ & _ & _ & Hsole).
  apply keyState_resolves in Hst
    as (a & sk & Ha & Hid & Hget & Hsk & Hkey & Hused & Hlim).
  apply AddPeer_Done_inv in Hadd as (account & sk1 & Hres & _ & _ & _ & ->).
  destruct Hres as [[Hempty _]|(_ & Hget1 & Hsk1)]; [congruence|].
  rewrite Hup in Hget1, Hsk1. rewrite Hget in Hget1. injection Hget1 as <-.
  rewrite Hsk in Hsk1. injection Hsk1 as <-.
  exists (withPeer a sk p), (IncrementUsage sk). simpl.
  rewrite Hid. split; [by rewrite lookup_insert_eq|].
  split; [done|]. split; [by rewrite Hkey, lookup_insert_eq|].
  split; [done|]. split; [by rewrite Hused|]. split; [done|].
  intros id' a' Ha' Hown. simpl in Ha'.
  destruct (decide (id' = id)) as [->|Hne]; [done|].
  rewrite lookup_insert_ne in Ha' by done. by eapply Hsole.
Qed.

Lemma registrations_keyState (K id : string) (n : nat) (w w' : World)
    (used limit : N) :
  K ≠ "" →
  registrations K n w w' →
  keyState K id w used limit →
  keyState K id w' (used + N.of_nat n) limit.
Proof.
  intros HK Hreg. revert used. induction Hreg as [w|n w w1 w2 setupKey peer now fresh io p Hreg IH Hup Hadd];
    intros used Hst.
  - by rewrite N.add_0_r.
  - replace (used + N.of_nat (S n))%N with (used + N.of_nat n + 1)%N by lia.
    eapply AddPeer_keyState; [exact HK | exact Hup | | exact Hadd].
    by apply IH.
Qed.

Lemma AddPeer_used_up (K id : string) (w : World) (used limit : N)
    (setupKey : string) (peer : Peer) (now : Time) (fresh : Account * SetupKey)
    (io : bool) :
  K ≠ "" → ToUpper setupKey = K →
  keyState K id w used limit → (limit <= used)%N →
  AddPeer setupKey peer now fresh io w = (Fail FailedPrecondition, w).
Proof.
  intros HK Hup Hst Hle.
  apply keyState_resolves in Hst
    as (a & sk & Ha & Hid & Hget & Hsk & Hkey & Hused & Hlim).
  apply (AddPeer_invalid_key setupKey peer now fresh io w a sk).
  - by rewrite Hup.
  - by rewrite Hup.
  - by rewrite Hup.
  - right. right. by rewrite Hused, Hlim.
Qed.

(** C6. [AddPeer] with a non-empty setup key, upper-cased first: a key that
    no account holds fails with NotFound; a key the Store resolves to a
    record that is revoked, expired or used up fails with
    FailedPrecondition; hence once [n] registrations with a key of limit
    [n] have succeeded, one more with that key fails with
    FailedPrecondition. None of the failures changes the memory. *)
Theorem AddPeer_setup_key_errors :
  (∀ setupKey peer now fresh io w,
     ToUpper setupKey ≠ "" →
     (∀ id a, accounts w !! id = Some a →
              Account_SetupKeys a !! ToUpper setupKey = None) →
     AddPeer setupKey peer now fresh io w = (Fail NotFound, w))
  ∧ (∀ setupKey peer now fresh io w account sk,
       ToUpper setupKey ≠ "" →
       Store_GetAccountBySetupKey (ToUpper setupKey) w = (Done account, w) →
       getAccountSetupKeyByKey account (ToUpper setupKey) = Some sk →
       invalid sk now →
       AddPeer setupKey peer now fresh io w = (Fail FailedPrecondition, w))
  ∧ (∀ K id n w w' used setupKey peer now fresh io,
       K ≠ "" → ToUpper setupKey = K →
       keyState K id w used (N.of_nat n) →
       registrations K n w w' →
       AddPeer setupKey peer now fresh io w' = (Fail FailedPrecondition, w')).
Proof.
  split; [exact AddPeer_unknown_key|]. split; [exact AddPeer_invalid_key|].
  intros K id n w w' used setupKey peer now fresh io HK Hup Hst Hreg.
  apply (AddPeer_used_up K id w' (used + N.of_nat n) (N.of_nat n));
    [done | done | | lia].
  by apply registrations_keyState with w.
Qed.

Lemma AddPeer_setup_key_errors_witness :
  AddPeer "zz" (server_samples.proposed "P9" "z") 1 server_samples.fresh0 true
          server_samples.world0
  = (Fail NotFound, server_samples.world0)
  ∧ AddPeer "k" (server_samples.proposed "P6" "f") 6 server_samples.fresh0 true
            server_samples.world_used_up
    = (Fail FailedPrecondition, server_samples.world_used_up)
  ∧ ∃ w5, registrations "K" 5 server_samples.world0 w5
          ∧ AddPeer "k" (server_samples.proposed "P6" "f") 6 server_samples.fresh0 true w5
            = (Fail FailedPrecondition, w5).
Proof.
  destruct AddPeer_setup_key_errors as (Hunknown & Hinvalid & Hused).
  split; [|split].
  - apply Hunknown; [discriminate|].
    intros id a Ha. unfold server_samples.world0 in Ha. cbn [accounts] in Ha.
    apply lookup_singleton_Some in Ha as [_ <-].
    vm_compute. reflexivity.
  - apply (Hinvalid _ _ _ _ _ _
             (server_samples.account_of server_samples.net24
                                        server_samples.K_used_up ∅)
             server_samples.K_used_up).
    + discriminate.
    + vm_compute. reflexivity.
    + vm_compute. reflexivity.
    + right. right. simpl. lia.
  - assert (∃ w5, registrations "K" 5 server_samples.world0 w5) as [w5 Hreg].
    { eexists.
      eapply (registrations_S "K" 4 _ _ _ "k" (server_samples.proposed "P5" "e") 5
                              server_samples.fresh0 true);
        [eapply (registrations_S "K" 3 _ _ _ "K" (server_samples.proposed "P4" "d") 4
                                 server_samples.fresh0 true);
         [eapply (registrations_S "K" 2 _ _ _ "k" (server_samples.proposed "P3" "c") 3
                                  server_samples.fresh0 true);
          [eapply (registrations_S "K" 1 _ _ _ "K" (server_samples.proposed "P2" "b") 2
                                   server_samples.fresh0 true);
           [eapply (registrations_S "K" 0 _ _ _ "k" (server_samples.proposed "P1" "a") 1
                                    server_samples.fresh0 true);
            [apply registrations_O | reflexivity | vm_compute; reflexivity]
           | reflexivity | vm_compute; reflexivity]
          | reflexivity | vm_compute; reflexivity]
         | reflexivity | vm_compute; reflexivity]
        | reflexivity | vm_compute; reflexivity]. }
    exists w5. split; [exact Hreg|].
    apply (Hused "K" "A" 5%nat server_samples.world0 w5 0%N);
      [discriminate | reflexivity | | exact Hreg].
    exists (server_samples.account_of server_samples.net24 server_samples.K ∅),
           server_samples.K.
    repeat split.
    intros id' a' Ha' _. unfold server_samples.world0 in Ha'. cbn [accounts] in Ha'.
    by apply lookup_singleton_Some in Ha' as [<- _].
Defined.

(** ** A successful AddPeer *)

(** C7. When [AddPeer] returns a peer, it worked on an account and a valid
    setup key (those the Store resolves the key to, or the fresh ones on the
    legacy path); the peer carries the proposed public key, its status
    reads not connected and last seen at [now], the account filed in the
    Store holds it under its public key, and the setup key's record there
    is the old one with its usage count one higher. *)
Theorem AddPeer_success (setupKey : string) (peer : Peer) (now : Time)
    (fresh : Account * SetupKey) (io : bool) (w w' : World) (p : Peer) :
  AddPeer setupKey peer now fresh io w = (Done p, w') →
  ∃ account sk,
    resolves setupKey fresh w account sk
    ∧ IsValid sk now = true
    ∧ Peer_Key p = Peer_Key peer
    ∧ readStatus (Peer_Status p) w' = (Done {| LastSeen := now; Connected := false |}, w')
    ∧ ∃ account' sk',
        accounts w' !! Account_Id account = Some account'
        ∧ Account_Peers account' !! Peer_Key p = Some p
        ∧ Account_SetupKeys account' !! SetupKey_Key sk = Some sk'
        ∧ sk' = IncrementUsage sk
        ∧ SetupKey_UsedTimes sk' = (SetupKey_UsedTimes sk + 1)%N.
Proof.
  intros Hadd.
  apply AddPeer_Done_inv in Hadd as (account & sk & Hres & Hvalid & _ & Hp & ->).
  exists account, sk. split; [exact Hres|]. split; [exact Hvalid|].
  split; [by rewrite Hp|]. split.
  { rewrite Hp. unfold readStatus. simpl.
    rewrite lookup_app_r by done. by rewrite Nat.sub_diag. }
  exists (withPeer account sk p), (IncrementUsage sk). simpl.
  split; [by rewrite lookup_insert_eq|].
  split; [by rewrite lookup_insert_eq|].
  split; [by rewrite lookup_insert_eq|]. done.
Qed.

Lemma AddPeer_success_witness :
  ∃ p w',
    AddPeer "k" (server_samples.proposed "P1" "a") 1 server_samples.fresh0 true
            server_samples.world0 = (Done p, w')
    ∧ Peer_IP p = Some (ipv4 10 0 0 1)
    ∧ ∃ account sk,
        resolves "k" server_samples.fresh0 server_samples.world0 account sk
        ∧ IsValid sk 1 = true
        ∧ Peer_Key p = "P1"
        ∧ readStatus (Peer_Status p) w' = (Done {| LastSeen := 1; Connected := false |}, w')
        ∧ ∃ account' sk',
            accounts w' !! Account_Id account = Some account'
            ∧ Account_Peers account' !! Peer_Key p = Some p
            ∧ Account_SetupKeys account' !! SetupKey_Key sk = Some sk'
            ∧ sk' = IncrementUsage sk
            ∧ SetupKey_UsedTimes sk' = (SetupKey_UsedTimes sk + 1)%N.
Proof.
  eexists _, _. split; [vm_compute; reflexivity|]. split; [reflexivity|].
  apply (AddPeer_success "k" (server_samples.proposed "P1" "a") 1
                         server_samples.fresh0 true server_samples.world0).
  vm_compute. reflexivity.
Defined.

(** ** Peer.Copy and the status it shares *)

Lemma updateStatus_read (p : StatusPtr) (f : PeerStatus -> PeerStatus)
    (w : World) (l : nat) (s : PeerStatus) :
  p = Some l → statuses w !! l = Some s →
  ∃ w', updateStatus p f w = (Done tt, w')
        ∧ accounts w' = accounts w
        ∧ readStatus p w' = (Done (f s), w').
Proof.
  intros -> Hl. unfold updateStatus, readStatus. rewrite Hl.
  eexists. split; [reflexivity|]. split; [reflexivity|]. simpl.
  rewrite list_lookup_insert_eq; [done|]. by eapply lookup_lt_Some.
Qed.

(** C10. [Copy] returns a peer whose [Status] is the very pointer of the
    original: whatever is written through the copy's status is what a read
    through the original's status returns. *)
Theorem Copy_shares_Status (p : Peer) :
  Peer_Status (Copy p) = Peer_Status p
  ∧ ∀ (f : PeerStatus -> PeerStatus) (w : World) (l : nat) (s : PeerStatus),
      Peer_Status p = Some l → statuses w !! l = Some s →
      ∃ w', updateStatus (Peer_Status (Copy p)) f w = (Done tt, w')
            ∧ readStatus (Peer_Status p) w' = (Done (f s), w').
Proof.
  split; [reflexivity|]. intros f w l s Hp Hl.
  destruct (updateStatus_read (Peer_Status (Copy p)) f w l s) as (w' & Hu & _ & Hr);
    [exact Hp | exact Hl |].
  exists w'. split; [exact Hu | exact Hr].
Qed.

(** ** MarkPeerConnected when the Store cannot persist *)

(** X3. For a peer the Store holds whose status object exists:
    [MarkPeerConnected] with a failing write returns the Store's error,
    and the peer's status object has been overwritten with the new
    connected flag and the current time. *)
Lemma MarkPeerConnected_save_fails (peerKey : string) (connected : bool)
    (now : Time) (w : World) (p : Peer) (a : Account) (l : nat) (s : PeerStatus) :
  Store_GetPeer peerKey w = (Done p, w) →
  Store_GetPeerAccount peerKey w = (Done a, w) →
  is_Some (accounts w !! Account_Id a) →
  Peer_Status p = Some l → statuses w !! l = Some s →
  MarkPeerConnected peerKey connected now false w =
    (Fail Internal,
     {| statuses := <[l := {| LastSeen := now; Connected := connected |}]> (statuses w);
        accounts := accounts w |}).
Proof.
  intros Hp Ha [a' Ha'] Hst Hl.
  unfold MarkPeerConnected, mbind, M_bind. rewrite Hp, Ha. simpl.
  rewrite Hst. unfold updateStatus at 1. rewrite Hl.
  unfold updateStatus. simpl.
  rewrite list_lookup_insert_eq by (by eapply lookup_lt_Some).
  unfold Store_SavePeer, mbind, M_bind, Store_GetAccount. simpl.
  rewrite Ha'. simpl. by rewrite list_insert_insert_eq.
Qed.

Lemma MarkPeerConnected_save_fails_witness :
  MarkPeerConnected "P1" true 7 false server_samples.world1
  = (Fail Internal,
     {| statuses := <[0%nat := {| LastSeen := 7; Connected := true |}]>
                      (statuses server_samples.world1);
        accounts := accounts server_samples.world1 |}).
Proof.
  eapply (MarkPeerConnected_save_fails "P1" true 7 server_samples.world1 _ _ 0%nat).
  - vm_compute. reflexivity.
  - vm_compute. reflexivity.
  - vm_compute. by eexists.
  - reflexivity.
  - vm_compute. reflexivity.
Defined.

(** C5. P1 was registered at time 1 and is not connected. A
    [MarkPeerConnected("P1", true)] at time 7 whose write to the Store fails
    returns the error, and yet [GetPeer("P1")] afterwards returns a peer
    whose status reads connected, last seen at 7: the status object was
    written through the pointer that [Copy] shares with the stored peer,
    before the save was attempted. *)
Theorem MarkPeerConnected_failed_save_is_visible :
  ∃ (p : Peer) (w' : World),
    GetPeer "P1" server_samples.world1 = (Done p, server_samples.world1)
    ∧ readStatus (Peer_Status p) server_samples.world1
      = (Done {| LastSeen := 1; Connected := false |}, server_samples.world1)
    ∧ MarkPeerConnected "P1" true 7 false server_samples.world1 = (Fail Internal, w')
    ∧ GetPeer "P1" w' = (Done p, w')
    ∧ readStatus (Peer_Status p) w' = (Done {| LastSeen := 7; Connected := true |}, w').
Proof.
  eexists _, _. repeat split; vm_compute; reflexivity.
Qed.

(** ** Addresses: what AddPeer takes for taken *)

(** The address [AddPeer] assigns is computed from the network and the
    addresses of the peers that are in the account at the time of the
    call; neither the watermark nor any peer that has been deleted enters
    into it. *)
Lemma AddPeer_IP (setupKey : string) (peer : Peer) (now : Time)
    (fresh : Account * SetupKey) (io : bool) (w w' : World) (p : Peer) :
  AddPeer setupKey peer now fresh io w = (Done p, w') →
  ∃ account sk,
    resolves setupKey fresh w account sk
    ∧ Peer_IP p = (AllocatePeerIP (Network_Net (Account_Network account))
                                  (takenIpsOf account)).1.
Proof.
  intros Hadd.
  apply AddPeer_Done_inv in Hadd as (account & sk & Hres & _ & _ & -> & _).
  by exists account, sk.
Qed.

(** What the allocator returns is a host address of the network that is
    not among the taken ones. *)
Lemma AllocatePeerIP_sound (ipNet : IPNet) (takenIps : list net_IP) (a : N) :
  (AllocatePeerIP ipNet takenIps).1 = Some a →
  Contains ipNet (Some a)
  ∧ a ≠ netBase ipNet
  ∧ (a + 1 < netBase ipNet + netSize ipNet)%N
  ∧ Some a ∉ takenIps.
Proof.
  unfold AllocatePeerIP.
  destruct (List.find _ (hostAddrs ipNet)) as [a'|] eqn:Hfind; simpl; [|discriminate].
  intros [= ->]. apply List.find_some in Hfind as [Hin Hfree].
  unfold hostAddrs in Hin. apply List.in_map_iff in Hin as (i & <- & Hi).
  apply List.in_seq in Hi. simpl.
  split; [lia|]. split; [lia|]. split; [lia|].
  apply negb_true_iff, bool_decide_eq_false in Hfree. exact Hfree.
Qed.

(** X2. The address a successful [AddPeer] assigns, when it is not nil, is
    a host address of the account's network and is the address of no peer
    that is in the account at the time of the call. *)
Lemma AddPeer_assigns_free_address (setupKey : string) (peer : Peer) (now : Time)
    (fresh : Account * SetupKey) (io : bool) (w w' : World) (p : Peer) (a : N) :
  AddPeer setupKey peer now fresh io w = (Done p, w') →
  Peer_IP p = Some a →
  ∃ account sk,
    resolves setupKey fresh w account sk
    ∧ Contains (Network_Net (Account_Network account)) (Some a)
    ∧ ∀ k q, Account_Peers account !! k = Some q → Peer_IP q ≠ Some a.
Proof.
  intros Hadd Hip.
  apply AddPeer_IP in Hadd as (account & sk & Hres & Halloc).
  rewrite Hip in Halloc. symmetry in Halloc.
  apply AllocatePeerIP_sound in Halloc as (Hin & _ & _ & Hfree).
  exists account, sk. split; [done|]. split; [done|].
  intros k q Hq Heq. apply Hfree. rewrite <- Heq.
  unfold takenIpsOf. apply list_elem_of_fmap. exists q. split; [done|].
  apply list_elem_of_fmap. exists (k, q). split; [done|].
  by apply elem_of_map_to_list.
Qed.

Lemma AddPeer_assigns_free_address_witness :
  ∃ account sk,
    resolves "K" server_samples.fresh0 server_samples.world1 account sk
    ∧ Contains (Network_Net (Account_Network account)) (Some (ipv4 10 0 0 2))
    ∧ ∀ k q, Account_Peers account !! k = Some q → Peer_IP q ≠ Some (ipv4 10 0 0 2).
Proof.
  eapply (AddPeer_assigns_free_address "K" (server_samples.proposed "P2" "b") 2
            server_samples.fresh0 true server_samples.world1).
  - vm_compute. reflexivity.
  - reflexivity.
Defined.

(** X1. [AddPeer] fails with NotFound, FailedPrecondition or Internal, and
    with nothing else: the allocator's error is dropped. *)
Lemma AddPeer_never_Exhausted (setupKey : string) (peer : Peer) (now : Time)
    (fresh : Account * SetupKey) (io : bool) (w : World) :
  (AddPeer setupKey peer now fresh io w).1 ≠ Fail Exhausted.
Proof.
  unfold AddPeer, mbind, M_bind.
  destruct (decide (String.length (ToUpper setupKey) = 0)) as [Hlen|Hlen].
  - destruct fresh as [account sk]. unfold mret, M_ret. simpl.
    destruct (IsValid sk now); simpl; [|done].
    unfold orErrorf, Store_SaveAccount. by destruct io.
  - unfold orErrorf, Store_GetAccountBySetupKey.
    destruct (accountsWhere (ownsSetupKey (ToUpper setupKey)) w)
      as [|account rest]; [done|].
    destruct (getAccountSetupKeyByKey account (ToUpper setupKey)) as [sk|]; [|done].
    unfold mret, M_ret. simpl.
    destruct (IsValid sk now); simpl; [|done].
    unfold Store_SaveAccount. by destruct io.
Qed.

(** C1. Account A on 10.0.0.0/24 with setup key K. P1 is registered and
    gets 10.0.0.1, P2 gets 10.0.0.2, P1 is deleted, P3 is registered: P3
    gets 10.0.0.1, the address P1 held, and not 10.0.0.3. *)
Theorem AddPeer_reuses_IP_after_delete :
  ∃ (p1 p2 d p3 : Peer) (w1 w2 w3 w4 : World),
    AddPeer "K" (server_samples.proposed "P1" "a") 1 server_samples.fresh0 true
            server_samples.world0 = (Done p1, w1)
    ∧ AddPeer "K" (server_samples.proposed "P2" "b") 2 server_samples.fresh0 true w1
      = (Done p2, w2)
    ∧ DeletePeer "A" "P1" true w2 = (Done d, w3)
    ∧ AddPeer "K" (server_samples.proposed "P3" "c") 3 server_samples.fresh0 true w3
      = (Done p3, w4)
    ∧ Peer_IP p1 = Some (ipv4 10 0 0 1)
    ∧ Peer_IP p2 = Some (ipv4 10 0 0 2)
    ∧ d = p1
    ∧ Peer_IP p3 = Some (ipv4 10 0 0 1)
    ∧ Network_LastIP (Account_Network
                        (default (server_samples.account_of server_samples.net24
                                                            server_samples.K ∅)
                                 (accounts w4 !! "A"))) = None.
Proof.
  eexists _, _, _, _, _, _, _, _.
  split; [vm_compute; reflexivity|].
  split; [vm_compute; reflexivity|].
  split; [vm_compute; reflexivity|].
  split; [vm_compute; reflexivity|].
  repeat split.
Qed.

(** C4. Account A on 10.0.0.0/30: its two host addresses 10.0.0.1 and
    10.0.0.2 are held by P1 and P2, and the allocator reports Exhausted.
    [AddPeer] for P3 nevertheless returns a peer, with a nil address, and
    the account holds it afterwards. *)
Theorem AddPeer_on_full_network :
  ∃ (p3 : Peer) (w' : World) (account' : Account),
    AllocatePeerIP server_samples.net30 [Some (ipv4 10 0 0 1); Some (ipv4 10 0 0 2)]
    = (None, Some Exhausted)
    ∧ AddPeer "K" (server_samples.proposed "P3" "c") 3 server_samples.fresh0 true
              server_samples.world_full = (Done p3, w')
    ∧ Peer_IP p3 = None
    ∧ accounts w' !! "A" = Some account'
    ∧ Account_Peers account' !! "P3" = Some p3
    ∧ size (Account_Peers account') = 3.
Proof.
  eexists _, _, _.
  split; [vm_compute; reflexivity|].
  split; [vm_compute; reflexivity|].
  split; [reflexivity|].
  split; [vm_compute; reflexivity|].
  split; vm_compute; reflexivity.
Qed.

(** ** Rename, then read back *)

Lemma storedPeer_GetPeer (peerKey accountId : string) (w : World) (p0 : Peer) :
  storedPeer peerKey accountId w p0 →
  Store_GetPeer peerKey w = (Done p0, w).
Proof.
  intros (a & Ha & Hid & Hp0 & Hkey & Hsole).
  unfold Store_GetPeer, mbind, M_bind, Store_GetPeerAccount.
  rewrite (accountsWhere_unique (ownsPeer peerKey) w accountId a);
    [by rewrite Hp0 | done | by exists p0 | done].
Qed.

(** C9. Peer [p0] is stored under [peerKey] in account [accountId]. When
    [RenamePeer(accountId, peerKey, newName)] returns, [GetPeer(peerKey)]
    returns the peer renamed to [newName], with the public key, setup key,
    address, metadata and status pointer of [p0], and the status objects
    are what they were. *)
Theorem RenamePeer_GetPeer (accountId peerKey newName : string) (io : bool)
    (w w' : World) (p0 p : Peer) :
  storedPeer peerKey accountId w p0 →
  RenamePeer accountId peerKey newName io w = (Done p, w') →
  GetPeer peerKey w' = (Done p, w')
  ∧ Peer_Name p = newName
  ∧ Peer_Key p = Peer_Key p0
  ∧ Peer_SetupKey p = Peer_SetupKey p0
  ∧ Peer_IP p = Peer_IP p0
  ∧ Peer_Meta p = Peer_Meta p0
  ∧ Peer_Status p = Peer_Status p0
  ∧ statuses w' = statuses w.
Proof.
  intros Hstored Hren. pose proof (storedPeer_GetPeer _ _ _ _ Hstored) as Hget.
  destruct Hstored as (a & Ha & Hid & Hp0 & Hkey & Hsole).
  unfold RenamePeer, mbind, M_bind in Hren. rewrite Hget in Hren.
  unfold Store_SavePeer, mbind, M_bind, Store_GetAccount in Hren.
  rewrite Ha in Hren. unfold Store_SaveAccount in Hren.
  destruct io; simpl in Hren; [|discriminate].
  unfold mret, M_ret in Hren. injection Hren as <- <-.
  split; [|by repeat split].
  unfold GetPeer. apply (storedPeer_GetPeer peerKey accountId).
  exists (set_Peers (<[Peer_Key p0 := set_Name newName (Copy p0)]> (Account_Peers a)) a).
  simpl. rewrite Hid, Hkey.
  split; [by rewrite lookup_insert_eq|]. split; [done|].
  split; [by rewrite lookup_insert_eq|]. split; [done|].
  intros id' a' Ha' Hown.
  destruct (decide (id' = accountId)) as [->|Hne]; [done|].
  rewrite lookup_insert_ne in Ha' by done. by eapply Hsole.
Qed.

Lemma RenamePeer_GetPeer_witness :
  ∃ p0 p w',
    GetPeer "P1" server_samples.world1 = (Done p0, server_samples.world1)
    ∧ RenamePeer "A" "P1" "laptop" true server_samples.world1 = (Done p, w')
    ∧ Peer_Name p0 = "a"
    ∧ GetPeer "P1" w' = (Done p, w')
    ∧ Peer_Name p = "laptop"
    ∧ Peer_Key p = Peer_Key p0
    ∧ Peer_SetupKey p = Peer_SetupKey p0
    ∧ Peer_IP p = Peer_IP p0
    ∧ Peer_Meta p = Peer_Meta p0
    ∧ Peer_Status p = Peer_Status p0
    ∧ statuses w' = statuses server_samples.world1.
Proof.
  eexists _, _, _.
  split; [vm_compute; reflexivity|].
  split; [vm_compute; reflexivity|].
  split; [reflexivity|].
  apply (RenamePeer_GetPeer "A" "P1" "laptop" true server_samples.world1).
  - eexists. split; [vm_compute; reflexivity|]. split; [reflexivity|].
    split; [vm_compute; reflexivity|]. split; [reflexivity|].
    intros id' a' Ha' _.
    assert (dom (accounts server_samples.world1) = ({[ "A" ]} : gset string)) as Hdom
      by (vm_compute; reflexivity).
    apply elem_of_dom_2 in Ha'. rewrite Hdom in Ha'.
    by apply elem_of_singleton in Ha'.
  - vm_compute. reflexivity.
Defined.

(** C9, as the spec states it, fails when a second account holds the key.
    Accounts A and B each hold a peer under the key P1, named "a" and "b".
    [RenamePeer("B", "P1", "laptop")] returns a peer named "laptop" and B
    holds it afterwards, yet [GetPeer("P1")] returns the peer of A, whose
    name is still "a". *)
Lemma RenamePeer_GetPeer_key_in_two_accounts :
  ∃ b pB p w' b' q,
    accounts server_samples2.world_P1_twice !! "B" = Some b
    ∧ Account_Peers b !! "P1" = Some pB
    ∧ Peer_Name pB = "b"
    ∧ RenamePeer "B" "P1" "laptop" true server_samples2.world_P1_twice = (Done p, w')
    ∧ Peer_Name p = "laptop"
    ∧ accounts w' !! "B" = Some b'
    ∧ Account_Peers b' !! "P1" = Some p
    ∧ GetPeer "P1" w' = (Done q, w')
    ∧ Peer_Name q = "a"
    ∧ Peer_Name q ≠ "laptop".
Proof.
  eexists _, _, _, _, _, _.
  split; [vm_compute; reflexivity|]. split; [vm_compute; reflexivity|].
  split; [reflexivity|]. split; [vm_compute; reflexivity|].
  split; [reflexivity|]. split; [vm_compute; reflexivity|].
  split; [vm_compute; reflexivity|]. split; [vm_compute; reflexivity|].
  split; [reflexivity|]. discriminate.
Qed.

End server_proofs.

(* ===================================================================== *)
(** * Part III, continued: more of the Account Manager                    *)
(* ===================================================================== *)

Section server_more_proofs.
Import server.

(** ** Helpers *)

Lemma accountsWhere_head (P : Account -> Prop) `{!∀ a, Decision (P a)}
    (w : World) (a : Account) (rest : list Account) :
  accountsWhere P w = a :: rest →
  P a ∧ ∃ id, accounts w !! id = Some a.
Proof.
  unfold accountsWhere. intros Heq.
  assert (a ∈ (map_to_list (filter (λ ia : string * Account, P ia.2)
                              (accounts w))).*2) as Hin.
  { rewrite Heq. left. }
  apply list_elem_of_fmap in Hin as [[id a'] [-> Hin]].
  apply elem_of_map_to_list, map_lookup_filter_Some in Hin as [Hl HP].
  split; [done|]. by exists id.
Qed.

Lemma resolves_stored (setupKey : string) (fresh : Account * SetupKey) (w : World)
    (account : Account) (sk : SetupKey) :
  resolves setupKey fresh w account sk →
  account = fresh.1 ∨ ∃ id, accounts w !! id = Some account.
Proof.
  intros [[_ ->]|(_ & Hget & _)]; [by left|]. right.
  unfold Store_GetAccountBySetupKey in Hget.
  destruct (accountsWhere (ownsSetupKey (ToUpper setupKey)) w) as [|a rest] eqn:Hfind;
    [discriminate|].
  injection Hget as ->. by apply accountsWhere_head in Hfind as [_ Hid].
Qed.

Lemma resolves_functional (setupKey : string) (fresh : Account * SetupKey) (w : World)
    (account1 account2 : Account) (sk1 sk2 : SetupKey) :
  resolves setupKey fresh w account1 sk1 →
  resolves setupKey fresh w account2 sk2 →
  account1 = account2 ∧ sk1 = sk2.
Proof.
  intros [[He1 Hf1]|(Hne1 & Hget1 & Hsk1)] [[He2 Hf2]|(Hne2 & Hget2 & Hsk2)];
    try congruence.
  - rewrite Hf1 in Hf2. by injection Hf2.
  - rewrite Hget1 in Hget2. injection Hget2 as <-.
    rewrite Hsk1 in Hsk2. by injection Hsk2.
Qed.

Lemma takenIpsOf_elem (account : Account) (k : string) (q : Peer) :
  Account_Peers account !! k = Some q → Peer_IP q ∈ takenIpsOf account.
Proof.
  intros Hq. unfold takenIpsOf. apply list_elem_of_fmap. exists q. split; [done|].
  apply list_elem_of_fmap. exists (k, q). split; [done|].
  by apply elem_of_map_to_list.
Qed.

Lemma upperAscii_idem (c : ascii) : upperAscii (upperAscii c) = upperAscii c.
Proof. destruct c as [[] [] [] [] [] [] [] []]; reflexivity. Qed.

Lemma ToUpper_idem (s : string) : ToUpper (ToUpper s) = ToUpper s.
Proof. induction s as [|c s IH]; simpl; [done|]. by rewrite upperAscii_idem, IH. Qed.

Lemma Copy_id (p : Peer) : Copy p = p.
Proof. by destruct p. Qed.

Lemma storedPeer_account (peerKey accountId : string) (w : World) (p0 : Peer)
    (a : Account) :
  storedPeer peerKey accountId w p0 → accounts w !! accountId = Some a →
  Store_GetPeerAccount peerKey w = (Done a, w)
  ∧ Account_Id a = accountId ∧ Account_Peers a !! peerKey = Some p0
  ∧ Peer_Key p0 = peerKey.
Proof.
  intros (a' & Ha' & Hid & Hp0 & Hkey & Hsole) Ha.
  rewrite Ha in Ha'. injection Ha' as <-. repeat split; try done.
  unfold Store_GetPeerAccount.
  rewrite (accountsWhere_unique (ownsPeer peerKey) w accountId a);
    [done | done | by exists p0 | done].
Qed.

(** ** Registration and the addresses of an account *)

(** X7. [AddPeer] keeps the addresses of every account in order: if in
    each account the non-nil addresses lie in the account's network and
    no two peers share one, and the same holds of the account
    [newAccount()] would return, then it holds again after a successful
    [AddPeer], also when the public key was registered before. *)
Lemma AddPeer_keeps_addresses (setupKey : string) (peer : Peer) (now : Time)
    (fresh : Account * SetupKey) (io : bool) (w w' : World) (p : Peer) :
  (∀ id a, accounts w !! id = Some a → addressesOK a) →
  addressesOK fresh.1 →
  AddPeer setupKey peer now fresh io w = (Done p, w') →
  ∀ id a, accounts w' !! id = Some a → addressesOK a.
Proof.
  intros Hinv Hfresh Hadd id a Ha.
  pose proof (AddPeer_IP _ _ _ _ _ _ _ _ Hadd) as (account0 & sk0 & Hres0 & Hip).
  apply AddPeer_Done_inv in Hadd as (account & sk & Hres & _ & _ & _ & ->).
  destruct (resolves_functional _ _ _ _ _ _ _ Hres0 Hres) as [-> ->].
  simpl in Ha.
  assert (addressesOK account) as Hacc.
  { destruct (resolves_stored _ _ _ _ _ Hres) as [->|[i Hi]]; [done|by eapply Hinv]. }
  destruct (decide (id = Account_Id account)) as [->|Hne];
    [|rewrite lookup_insert_ne in Ha by done; by eapply Hinv].
  rewrite lookup_insert_eq in Ha. injection Ha as <-.
  assert (∀ ip, Peer_IP p = Some ip →
                Contains (Network_Net (Account_Network account)) (Some ip)
                ∧ Some ip ∉ takenIpsOf account) as Hnew.
  { intros ip Hp. rewrite Hp in Hip. symmetry in Hip.
    by apply AllocatePeerIP_sound in Hip as (? & _ & _ & ?). }
  intros k q ip Hq Hqip. unfold withPeer in Hq |- *. simpl in Hq |- *.
  destruct (decide (k = Peer_Key p)) as [->|Hk].
  - rewrite lookup_insert_eq in Hq. injection Hq as <-.
    destruct (Hnew ip Hqip) as [Hin Hfree]. split; [done|].
    intros k' p' Hp' Hp'ip.
    destruct (decide (k' = Peer_Key p)) as [->|Hk']; [done|].
    rewrite lookup_insert_ne in Hp' by done. exfalso. apply Hfree.
    rewrite <- Hp'ip. by eapply takenIpsOf_elem.
  - rewrite lookup_insert_ne in Hq by done.
    destruct (Hacc k q ip Hq Hqip) as [Hin Huniq]. split; [done|].
    intros k' p' Hp' Hp'ip.
    destruct (decide (k' = Peer_Key p)) as [->|Hk'].
    + rewrite lookup_insert_eq in Hp'. injection Hp' as <-.
      destruct (Hnew ip Hp'ip) as [_ Hfree]. exfalso. apply Hfree.
      rewrite <- Hqip. by eapply takenIpsOf_elem.
    + rewrite lookup_insert_ne in Hp' by done. by eapply Huniq.
Qed.

(** X8. [AddPeer] does not ask whether the public key is registered
    already. When the account holds a peer under the proposed key, a
    successful [AddPeer] files the new peer in its place: the account has
    as many peers as before, and the new peer's address, unless nil,
    differs from the one the old peer held. *)
Lemma AddPeer_replaces_registered_key (setupKey : string) (peer : Peer) (now : Time)
    (fresh : Account * SetupKey) (io : bool) (w w' : World) (p old : Peer)
    (account : Account) (sk : SetupKey) :
  resolves setupKey fresh w account sk →
  Account_Peers account !! Peer_Key peer = Some old →
  AddPeer setupKey peer now fresh io w = (Done p, w') →
  ∃ account',
    accounts w' !! Account_Id account = Some account'
    ∧ Account_Peers account' !! Peer_Key peer = Some p
    ∧ size (Account_Peers account') = size (Account_Peers account)
    ∧ ∀ ip, Peer_IP p = Some ip → Peer_IP old ≠ Some ip.
Proof.
  intros Hres Hold Hadd.
  pose proof (AddPeer_IP _ _ _ _ _ _ _ _ Hadd) as (account0 & sk0 & Hres0 & Hip).
  destruct (resolves_functional _ _ _ _ _ _ _ Hres0 Hres) as [-> ->].
  apply AddPeer_Done_inv in Hadd as (account1 & sk1 & Hres1 & _ & _ & Hp & ->).
  destruct (resolves_functional _ _ _ _ _ _ _ Hres1 Hres) as [-> ->].
  assert (Peer_Key p = Peer_Key peer) as Hkey by (by rewrite Hp).
  exists (withPeer account sk p). simpl. rewrite Hkey.
  split; [by rewrite lookup_insert_eq|]. split; [by rewrite lookup_insert_eq|].
  split; [by rewrite map_size_insert_Some|].
  intros ip Hpip Holdip. rewrite Hpip in Hip. symmetry in Hip.
  apply AllocatePeerIP_sound in Hip as (_ & _ & _ & Hfree). apply Hfree.
  rewrite <- Holdip. by eapply takenIpsOf_elem.
Qed.

(** X9. [AddPeer] reads the setup key without regard to the case of its
    letters: a key and its upper-cased form give the same result. *)
Lemma AddPeer_case_insensitive (setupKey : string) (peer : Peer) (now : Time)
    (fresh : Account * SetupKey) (io : bool) (w : World) :
  AddPeer (ToUpper setupKey) peer now fresh io w
  = AddPeer setupKey peer now fresh io w.
Proof. unfold AddPeer. by rewrite ToUpper_idem. Qed.

Lemma AddPeer_keeps_addresses_witness :
  ∃ a, accounts server_samples2.world12 !! "A" = Some a
       ∧ size (Account_Peers a) = 2
       ∧ addressesOK a.
Proof.
  assert (∀ id a, accounts server_samples.world0 !! id = Some a → addressesOK a) as H0.
  { intros id a Ha. unfold server_samples.world0 in Ha. cbn [accounts] in Ha.
    apply lookup_singleton_Some in Ha as [_ <-].
    intros k q ip Hq. change ((∅ : gmap string Peer) !! k = Some q) in Hq.
    by rewrite lookup_empty in Hq. }
  assert (addressesOK server_samples.fresh0.1) as Hfresh.
  { intros k q ip Hq. change ((∅ : gmap string Peer) !! k = Some q) in Hq.
    by rewrite lookup_empty in Hq. }
  assert (∃ p1, AddPeer "k" (server_samples.proposed "P1" "a") 1 server_samples.fresh0
                        true server_samples.world0 = (Done p1, server_samples.world1))
    as [p1 Hadd1] by (eexists; vm_compute; reflexivity).
  assert (∃ p2, AddPeer "K" (server_samples.proposed "P2" "b") 2 server_samples.fresh0
                        true server_samples.world1 = (Done p2, server_samples2.world12))
    as [p2 Hadd2] by (eexists; vm_compute; reflexivity).
  pose proof (AddPeer_keeps_addresses _ _ _ _ _ _ _ _ H0 Hfresh Hadd1) as H1.
  pose proof (AddPeer_keeps_addresses _ _ _ _ _ _ _ _ H1 Hfresh Hadd2) as H2.
  eexists. split; [vm_compute; reflexivity|]. split; [vm_compute; reflexivity|].
  apply (H2 "A"). vm_compute. reflexivity.
Defined.

Lemma AddPeer_replaces_registered_key_witness :
  ∃ p w' old account sk account',
    AddPeer "K" (server_samples.proposed "P1" "again") 5 server_samples.fresh0 true
            server_samples.world1 = (Done p, w')
    ∧ resolves "K" server_samples.fresh0 server_samples.world1 account sk
    ∧ Account_Peers account !! "P1" = Some old
    ∧ Peer_IP old = Some (ipv4 10 0 0 1)
    ∧ Peer_IP p = Some (ipv4 10 0 0 2)
    ∧ accounts w' !! Account_Id account = Some account'
    ∧ Account_Peers account' !! "P1" = Some p
    ∧ size (Account_Peers account') = 1.
Proof.
  assert (∃ p w', AddPeer "K" (server_samples.proposed "P1" "again") 5
                          server_samples.fresh0 true server_samples.world1 = (Done p, w')
                  ∧ Peer_IP p = Some (ipv4 10 0 0 2)) as (p & w' & Hadd & Hip)
    by (eexists _, _; split; [vm_compute; reflexivity | reflexivity]).
  assert (∃ account sk old,
             resolves "K" server_samples.fresh0 server_samples.world1 account sk
             ∧ Account_Peers account !! "P1" = Some old
             ∧ Peer_IP old = Some (ipv4 10 0 0 1)
             ∧ size (Account_Peers account) = 1)
    as (account & sk & old & Hres & Hold & Holdip & Hsize).
  { eexists _, _, _. split.
    - right. split; [discriminate|]. split; vm_compute; reflexivity.
    - split; [vm_compute; reflexivity|]. split; [reflexivity | vm_compute; reflexivity]. }
  destruct (AddPeer_replaces_registered_key "K" (server_samples.proposed "P1" "again") 5
              server_samples.fresh0 true server_samples.world1 w' p old account sk
              Hres Hold Hadd) as (account' & Ha' & Hp' & Hsize' & _).
  exists p, w', old, account, sk, account'.
  repeat split; try done. by rewrite Hsize'.
Defined.

(** ** Renaming *)

(** X11. [RenamePeer] looks the peer up by its key alone and saves the
    renamed copy into the account it is given. It does not check that the
    account holds the peer: given an account that does not, it succeeds
    and that account holds the renamed peer afterwards, one peer more than
    before. *)
Lemma RenamePeer_into_other_account (accountId peerKey newName : string)
    (w : World) (p0 : Peer) (b : Account) :
  Store_GetPeer peerKey w = (Done p0, w) →
  accounts w !! accountId = Some b →
  Account_Peers b !! Peer_Key p0 = None →
  ∃ w' b',
    RenamePeer accountId peerKey newName true w = (Done (set_Name newName p0), w')
    ∧ accounts w' !! Account_Id b = Some b'
    ∧ Account_Peers b' !! Peer_Key p0 = Some (set_Name newName p0)
    ∧ size (Account_Peers b') = S (size (Account_Peers b)).
Proof.
  intros Hget Hb Hnone.
  unfold RenamePeer, mbind, M_bind. rewrite Hget.
  unfold Store_SavePeer, mbind, M_bind, Store_GetAccount. rewrite Hb.
  unfold Store_SaveAccount, mret, M_ret. simpl. rewrite Copy_id.
  eexists _, _. split; [reflexivity|]. simpl.
  split; [by rewrite lookup_insert_eq|]. simpl.
  split; [by rewrite lookup_insert_eq|].
  by rewrite map_size_insert_None.
Qed.

Lemma RenamePeer_into_other_account_witness :
  ∃ p0 a w' b',
    Store_GetPeer "P1" server_samples2.world_two_accounts
    = (Done p0, server_samples2.world_two_accounts)
    ∧ accounts server_samples2.world_two_accounts !! "A" = Some a
    ∧ Account_Peers a !! "P1" = Some p0
    ∧ RenamePeer "B" "P1" "laptop" true server_samples2.world_two_accounts
      = (Done (set_Name "laptop" p0), w')
    ∧ accounts w' !! "B" = Some b'
    ∧ Account_Peers b' !! "P1" = Some (set_Name "laptop" p0)
    ∧ size (Account_Peers b') = 1
    ∧ accounts w' !! "A" = Some a.
Proof.
  assert (∃ p0 a b,
             Store_GetPeer "P1" server_samples2.world_two_accounts
             = (Done p0, server_samples2.world_two_accounts)
             ∧ accounts server_samples2.world_two_accounts !! "A" = Some a
             ∧ Account_Peers a !! "P1" = Some p0
             ∧ accounts server_samples2.world_two_accounts !! "B" = Some b
             ∧ Account_Peers b !! Peer_Key p0 = None
             ∧ Account_Id b = "B" ∧ Peer_Key p0 = "P1" ∧ size (Account_Peers b) = 0)
    as (p0 & a & b & Hget & Ha & Hp0 & Hb & Hnone & Hid & Hkey & Hsize).
  { eexists _, _, _. split; [vm_compute; reflexivity|].
    split; [vm_compute; reflexivity|]. split; [vm_compute; reflexivity|].
    split; [vm_compute; reflexivity|]. split; [vm_compute; reflexivity|].
    split; [reflexivity|]. split; [reflexivity | vm_compute; reflexivity]. }
  destruct (RenamePeer_into_other_account "B" "P1" "laptop"
              server_samples2.world_two_accounts p0 b Hget Hb Hnone)
    as (w' & b' & Hren & Hb' & Hp' & Hsize').
  exists p0, a, w', b'. rewrite Hid in Hb'. rewrite Hkey in Hp'.
  rewrite Hsize in Hsize'. repeat split; try done.
  unfold RenamePeer, mbind, M_bind in Hren. rewrite Hget in Hren.
  unfold Store_SavePeer, mbind, M_bind, Store_GetAccount in Hren. rewrite Hb in Hren.
  unfold Store_SaveAccount, mret, M_ret in Hren. simpl in Hren.
  injection Hren as <-. simpl. rewrite Hid.
  rewrite lookup_insert_ne by done. exact Ha.
Defined.

(** ** Connection status *)

(** X12. For a stored peer whose status object exists, [MarkPeerConnected]
    with a write that succeeds returns no error; the peer read back is the
    same peer, and its status reads the given flag and the current time,
    whether the flag is true or false. *)
Lemma MarkPeerConnected_success (peerKey accountId : string) (connected : bool)
    (now : Time) (w : World) (p0 : Peer) (l : nat) (s0 : PeerStatus) :
  storedPeer peerKey accountId w p0 →
  Peer_Status p0 = Some l → statuses w !! l = Some s0 →
  ∃ w',
    MarkPeerConnected peerKey connected now true w = (Done tt, w')
    ∧ GetPeer peerKey w' = (Done p0, w')
    ∧ readStatus (Peer_Status p0) w'
      = (Done {| LastSeen := now; Connected := connected |}, w').
Proof.
  intros Hstored Hst Hl.
  pose proof (storedPeer_GetPeer _ _ _ _ Hstored) as Hget.
  pose proof Hstored as (a & Ha & _ & _ & _ & Hsole).
  destruct (storedPeer_account _ _ _ _ a Hstored Ha) as (Hacc & Hid & Hp0 & Hkey).
  unfold MarkPeerConnected, mbind, M_bind. rewrite Hget, Hacc. simpl.
  rewrite Hst. unfold updateStatus at 1. rewrite Hl.
  unfold updateStatus. simpl.
  rewrite list_lookup_insert_eq by (by eapply lookup_lt_Some).
  unfold Store_SavePeer, mbind, M_bind, Store_GetAccount. simpl.
  rewrite Hid, Ha. unfold Store_SaveAccount. simpl.
  rewrite list_insert_insert_eq, Copy_id, Hid, Hkey.
  eexists. split; [reflexivity|]. split.
  - unfold GetPeer. apply (storedPeer_GetPeer peerKey accountId).
    exists (set_Peers (<[peerKey := p0]> (Account_Peers a)) a). simpl.
    split; [by rewrite lookup_insert_eq|]. split; [done|].
    split; [by rewrite lookup_insert_eq|]. split; [done|].
    intros id' a' Ha' Hown.
    destruct (decide (id' = accountId)) as [->|Hne]; [done|].
    rewrite lookup_insert_ne in Ha' by done. by eapply Hsole.
  - unfold readStatus. simpl.
    rewrite list_lookup_insert_eq by (by eapply lookup_lt_Some). done.
Qed.

Lemma MarkPeerConnected_success_witness :
  ∃ p0 w',
    GetPeer "P1" server_samples.world1 = (Done p0, server_samples.world1)
    ∧ MarkPeerConnected "P1" false 9 true server_samples.world1 = (Done tt, w')
    ∧ GetPeer "P1" w' = (Done p0, w')
    ∧ readStatus (Peer_Status p0) w' = (Done {| LastSeen := 9; Connected := false |}, w').
Proof.
  assert (∃ p0, GetPeer "P1" server_samples.world1 = (Done p0, server_samples.world1)
                ∧ storedPeer "P1" "A" server_samples.world1 p0
                ∧ Peer_Status p0 = Some 0%nat) as (p0 & Hget & Hstored & Hst).
  { eexists. split; [vm_compute; reflexivity|]. split; [|reflexivity].
    eexists. split; [vm_compute; reflexivity|]. split; [reflexivity|].
    split; [vm_compute; reflexivity|]. split; [reflexivity|].
    intros id' a' Ha' _.
    assert (dom (accounts server_samples.world1) = ({[ "A" ]} : gset string)) as Hdom
      by (vm_compute; reflexivity).
    apply elem_of_dom_2 in Ha'. rewrite Hdom in Ha'.
    by apply elem_of_singleton in Ha'. }
  destruct (MarkPeerConnected_success "P1" "A" false 9 server_samples.world1 p0 0%nat
              {| LastSeen := 1; Connected := false |} Hstored Hst)
    as (w' & Hmark & Hget' & Hread); [vm_compute; reflexivity|].
  by exists p0, w'.
Defined.

(** ** Reading peers *)




(** X14. [GetPeerByIP]: an account the Store does not hold, and an account
    none of whose peers has an address that prints as the text asked for,
    both give NotFound; for a peer of the account whose printed address no
    other peer of the account shares, asking for that text returns the
    peer. The Store is left as it is. *)
Theorem GetPeerByIP_finds :
  (∀ accountId peerIP w,
     accounts w !! accountId = None →
     GetPeerByIP accountId peerIP w = (Fail NotFound, w))
  ∧ (∀ accountId peerIP w a,
       accounts w !! accountId = Some a →
       (∀ k q, Account_Peers a !! k = Some q → IP_String (Peer_IP q) ≠ peerIP) →
       GetPeerByIP accountId peerIP w = (Fail NotFound, w))
  ∧ (∀ accountId w a k p,
       accounts w !! accountId = Some a →
       Account_Peers a !! k = Some p →
       (∀ k' q, Account_Peers a !! k' = Some q →
                IP_String (Peer_IP q) = IP_String (Peer_IP p) → q = p) →
       GetPeerByIP accountId (IP_String (Peer_IP p)) w = (Done p, w)).
Proof.
  split; [|split].
  - intros accountId peerIP w Hnone.
    unfold GetPeerByIP, mbind, M_bind, orErrorf, Store_GetAccount. by rewrite Hnone.
  - intros accountId peerIP w a Ha Hnone.
    unfold GetPeerByIP, mbind, M_bind, orErrorf, Store_GetAccount. rewrite Ha.
    destruct (List.find _ _) as [q|] eqn:Hfind; [|done].
    apply List.find_some in Hfind as [Hin Heq]. apply list_elem_of_In in Hin.
    apply list_elem_of_fmap in Hin as ([k q'] & -> & Hin).
    apply elem_of_map_to_list in Hin. apply String.eqb_eq in Heq.
    exfalso. by eapply Hnone.
  - intros accountId w a k p Ha Hp Huniq.
    unfold GetPeerByIP, mbind, M_bind, orErrorf, Store_GetAccount. rewrite Ha.
    destruct (List.find _ _) as [q|] eqn:Hfind.
    + apply List.find_some in Hfind as [Hin Heq]. apply list_elem_of_In in Hin.
      apply list_elem_of_fmap in Hin as ([k' q'] & -> & Hin).
      apply elem_of_map_to_list in Hin. apply String.eqb_eq in Heq. simpl in *.
      by rewrite (Huniq k' q' Hin).
    + exfalso.
      assert (p ∈ (map_to_list (Account_Peers a)).*2) as Hin.
      { apply list_elem_of_fmap. exists (k, p). split; [done|].
        by apply elem_of_map_to_list. }
      apply list_elem_of_In in Hin.
      pose proof (List.find_none _ _ Hfind p Hin) as Hno. simpl in Hno.
      by rewrite String.eqb_refl in Hno.
Qed.

Lemma GetPeerByIP_finds_witness :
  GetPeerByIP "Z" "10.0.0.1" server_samples2.world12
  = (Fail NotFound, server_samples2.world12)
  ∧ (∃ p1, GetPeerByIP "A" "10.0.0.1" server_samples2.world12
           = (Done p1, server_samples2.world12) ∧ Peer_Key p1 = "P1")
  ∧ (∃ p3, GetPeerByIP "A" "<nil>" server_samples2.world_full3
           = (Done p3, server_samples2.world_full3) ∧ Peer_Key p3 = "P3").
Proof.
  destruct GetPeerByIP_finds as (Hmissing & _ & _). split.
  - apply Hmissing. vm_compute. reflexivity.
  - split; eexists; (split; [vm_compute; reflexivity | reflexivity]).
Defined.

End server_more_proofs.

(* ===================================================================== *)
(** * Part IV: properties of the Peer Engine                              *)
(* ===================================================================== *)

Section engine_proofs.
Import internal.
Context {Connection Candidate : Type} `{!Externals Connection Candidate}.

(** ** Removing connections *)

Lemma removePeerConnection_conns (peerKey : string) (e : Engine Connection) :
  conns (removePeerConnection peerKey e).2 = delete peerKey (conns e)
  ∧ config (removePeerConnection peerKey e).2 = config e
  ∧ wgPort (removePeerConnection peerKey e).2 = wgPort e.
Proof.
  unfold removePeerConnection.
  destruct (conns e !! peerKey) as [conn|] eqn:Hconn; simpl; [done|].
  by rewrite delete_id.
Qed.

Lemma removePeerConnections_ok (peers : list string) (e e' : Engine Connection) :
  removePeerConnections peers e = (None, e') →
  (∀ k, conns e' !! k = if decide (k ∈ peers) then None else conns e !! k)
  ∧ config e' = config e ∧ wgPort e' = wgPort e.
Proof.
  revert e. induction peers as [|peer rest IH]; intros e Hrun; simpl in Hrun.
  - injection Hrun as <-. split; [|done]. intros k.
    destruct (decide (k ∈ [])) as [Hin|_]; [|done]. by apply elem_of_nil in Hin.
  - destruct (removePeerConnection_conns peer e) as (Hc & Hcfg & Hport).
    destruct (removePeerConnection peer e) as [[err|] e1]; [discriminate|].
    simpl in Hc, Hcfg, Hport.
    apply IH in Hrun as (Hk & Hcfg' & Hport').
    split; [|split; congruence]. intros k. rewrite Hk, Hc.
    destruct (decide (k ∈ rest)) as [Hin|Hnin].
    + rewrite decide_True; [done|]. by right.
    + destruct (decide (k = peer)) as [->|Hne].
      * rewrite decide_True by left. apply lookup_delete_eq.
      * rewrite decide_False; [by rewrite lookup_delete_ne|].
        intros Hin. apply elem_of_cons in Hin as [?|?]; done.
Qed.

(** When no [Close] fails, neither does the removal. *)
Lemma removePeerConnections_no_error (peers : list string) (e : Engine Connection) :
  (∀ c, (Close c).2 = None) →
  (removePeerConnections peers e).1 = None.
Proof.
  intros Hclose. revert e. induction peers as [|peer rest IH]; intros e; simpl; [done|].
  destruct (removePeerConnection peer e) as [err e1] eqn:Hrem.
  assert (err = None) as ->.
  { unfold removePeerConnection in Hrem.
    destruct (conns e !! peer); injection Hrem as <- <-; [apply Hclose | done]. }
  apply IH.
Qed.

(** ** The management handler *)

(** C3, as the code has it. When the handler returns without error: for an
    update that lists peers, a connection stays exactly when its key is
    listed, no connection is added or changed, and the keys of [conns]
    together with the keys of the initializers started are the keys
    listed; an update with an empty list leaves the engine as it is and
    starts nothing. *)
Theorem receiveManagementEvents_converges (update : SyncResponse)
    (e e' : Engine Connection) (spawned : list Peer) :
  receiveManagementEvents_handler update e = (None, e', spawned) →
  (RemotePeers update ≠ [] →
     (∀ k, conns e' !! k =
           if decide (k ∈ RemotePeerConfig_WgPubKey <$> RemotePeers update)
           then conns e !! k else None)
     ∧ dom (conns e') ∪ list_to_set (WgPubKey <$> spawned)
       = (list_to_set (RemotePeerConfig_WgPubKey <$> RemotePeers update) : gset string))
  ∧ (RemotePeers update = [] → e' = e ∧ spawned = []).
Proof.
  unfold receiveManagementEvents_handler. intros Hrun.
  destruct (decide (length (RemotePeers update) ≠ 0)) as [Hlen|Hlen]; split.
  - intros _.
    destruct (removePeerConnections _ e) as [[err|] e1] eqn:Hrem; [discriminate|].
    injection Hrun as <- <-.
    apply removePeerConnections_ok in Hrem as (Hk & _ & _).
    assert (∀ k, conns e1 !! k =
                 if decide (k ∈ RemotePeerConfig_WgPubKey <$> RemotePeers update)
                 then conns e !! k else None) as Hkeep.
    { intros k. rewrite Hk.
      destruct (decide (k ∈ RemotePeerConfig_WgPubKey <$> RemotePeers update))
        as [Hin|Hnin].
      - rewrite decide_False; [done|]. intros Hrm.
        apply list_elem_of_filter in Hrm as [Hnot _]. apply Hnot.
        by apply elem_of_list_to_set.
      - destruct (conns e !! k) as [c|] eqn:Hc; [|by case_decide].
        rewrite decide_True; [done|]. apply list_elem_of_filter. split.
        + intros Hin. by apply elem_of_list_to_set in Hin.
        + apply rangeKeys_spec. by exists c. }
    split; [exact Hkeep|].
    apply set_eq. intros k.
    rewrite elem_of_union, elem_of_dom, !elem_of_list_to_set. split.
    + intros [[c Hc]|Hsp].
      * rewrite Hkeep in Hc.
        destruct (decide (k ∈ RemotePeerConfig_WgPubKey <$> RemotePeers update));
          [done | discriminate].
      * apply list_elem_of_fmap in Hsp as (sp & -> & Hsp).
        apply list_elem_of_fmap in Hsp as (peer & -> & Hpeer).
        apply list_elem_of_filter in Hpeer as [_ Hpeer]. simpl.
        apply list_elem_of_fmap. by exists peer.
    + intros Hin. destruct (conns e1 !! k) as [c|] eqn:Hc; [left; by exists c|].
      right. apply list_elem_of_fmap in Hin as (peer & -> & Hpeer).
      apply list_elem_of_fmap.
      exists {| WgPubKey := RemotePeerConfig_WgPubKey peer;
                WgAllowedIps := Join (RemotePeerConfig_AllowedIps peer) "," |}.
      split; [done|]. apply list_elem_of_fmap. exists peer. split; [done|].
      by apply list_elem_of_filter.
  - intros Hnil. rewrite Hnil in Hlen. done.
  - intros Hne. destruct (RemotePeers update); [done|]. simpl in Hlen. lia.
  - intros _. by injection Hrun as <- <-.
Qed.

(** X5. When no [Close] fails, the handler returns without error. *)
Lemma receiveManagementEvents_no_error (update : SyncResponse) (e : Engine Connection) :
  (∀ c, (Close c).2 = None) →
  (receiveManagementEvents_handler update e).1.1 = None.
Proof.
  intros Hclose. unfold receiveManagementEvents_handler.
  destruct (decide (length (RemotePeers update) ≠ 0)); [|done].
  pose proof (removePeerConnections_no_error
                (filter (λ p, p ∉ (list_to_set (RemotePeerConfig_WgPubKey <$>
                                                 RemotePeers update) : gset string))
                        (rangeKeys (conns e))) e Hclose) as Hrem.
  destruct (removePeerConnections _ e) as [err e1]. simpl in Hrem. by rewrite Hrem.
Qed.

(** ** The signal handler *)

(** C2, as the code has it. A message whose sender key has no connection in
    [conns], or whose connection is configured for another remote key, is
    answered with an error and leaves the engine as it is. The handler
    looks at the sender key only. *)
Theorem receiveSignalEvents_unknown_sender (msg : Message) (e : Engine Connection) :
  (conns e !! Message_Key msg = None
   ∨ ∃ conn, conns e !! Message_Key msg = Some conn
             ∧ RemoteWgKey (Config conn) ≠ Message_Key msg) →
  ∃ err, receiveSignalEvents_handler msg e = (Some err, e).
Proof.
  unfold receiveSignalEvents_handler. intros [Hnone|(conn & Hconn & Hkey)].
  - rewrite Hnone. by eexists.
  - rewrite Hconn. apply String.eqb_neq in Hkey. rewrite Hkey. simpl. by eexists.
Qed.

(** X6. The handler never reads the addressee of a message: with a codec
    that decodes the body, changing the addressee changes nothing. *)
Lemma receiveSignalEvents_ignores_RemoteKey (msg : Message) (remoteKey : string)
    (e : Engine Connection) :
  (∀ m1 m2, Message_Body m1 = Message_Body m2 →
            UnMarshalCredential m1 = UnMarshalCredential m2) →
  receiveSignalEvents_handler
    {| Message_Key := Message_Key msg; Message_RemoteKey := remoteKey;
       Message_Body := Message_Body msg |} e
  = receiveSignalEvents_handler msg e.
Proof.
  intros Hcodec. unfold receiveSignalEvents_handler. simpl.
  by rewrite (Hcodec {| Message_Key := Message_Key msg; Message_RemoteKey := remoteKey;
                        Message_Body := Message_Body msg |} msg).
Qed.

(** ** The initializer's check *)

(** X4. At its check an initializer whose peer is not in [conns] exits,
    and leaves the engine as it is. *)
Lemma runInitializer_check_absent (peer : Peer) (err : option error)
    (e : Engine Connection) :
  conns e !! WgPubKey peer = None →
  runInitializer {| init_peer := peer; init_pc := AtCheck err |} e
  = ({| init_peer := peer; init_pc := Exited |}, e).
Proof.
  intros Habsent. unfold runInitializer, operation_result. simpl. by rewrite Habsent.
Qed.

(** An attempt stores the peer's connection, whatever [conns] held. *)
Lemma runInitializer_attempt_stores (peer : Peer) (e : Engine Connection) :
  is_Some (conns (runInitializer {| init_peer := peer; init_pc := AtOpen |} e).2
           !! ParseKey_String (WgPubKey peer)).
Proof.
  unfold runInitializer, openPeerConnection_register. simpl.
  rewrite lookup_insert_eq. by eexists.
Qed.

End engine_proofs.

Section engine_scenarios.
Import internal.

Lemma receiveManagementEvents_converges_witness :
  ∃ e' spawned,
    receiveManagementEvents_handler
      {| RemotePeers := [engine_samples.remote "P2"; engine_samples.remote "P3"] |}
      engine_samples.engine_P1_P2 = (None, e', spawned)
    ∧ dom (conns engine_samples.engine_P1_P2) = ({[ "P1"; "P2" ]} : gset string)
    ∧ dom (conns e') = ({[ "P2" ]} : gset string)
    ∧ WgPubKey <$> spawned = ["P3"]
    ∧ dom (conns e') ∪ list_to_set (WgPubKey <$> spawned)
      = (list_to_set ["P2"; "P3"] : gset string).
Proof.
  eexists _, _. split; [vm_compute; reflexivity|].
  split; [vm_compute; reflexivity|].
  split; [vm_compute; reflexivity|].
  split; [vm_compute; reflexivity|].
  refine (proj2 (proj1 (receiveManagementEvents_converges
    {| RemotePeers := [engine_samples.remote "P2"; engine_samples.remote "P3"] |}
    engine_samples.engine_P1_P2 _ _ _) _)).
  - vm_compute. reflexivity.
  - discriminate.
Defined.

(** C3, as the spec states it, fails: with [conns = {P1}], an update with an
    empty peer list returns no error, leaves [conns = {P1}] and starts
    nothing, so the keys of [conns] are not the (empty) set listed. *)
Lemma receiveManagementEvents_empty_update_keeps_peers :
  receiveManagementEvents_handler {| RemotePeers := [] |} engine_samples.engine_P1
  = (None, engine_samples.engine_P1, [])
  ∧ dom (conns engine_samples.engine_P1) = ({[ "P1" ]} : gset string)
  ∧ dom (conns engine_samples.engine_P1)
    ≠ (list_to_set (RemotePeerConfig_WgPubKey <$> RemotePeers {| RemotePeers := [] |})
       : gset string).
Proof.
  assert (dom (conns engine_samples.engine_P1) = ({[ "P1" ]} : gset string)) as Hdom
    by (vm_compute; reflexivity).
  split; [reflexivity|]. split; [exact Hdom|].
  rewrite Hdom. simpl. intros Heq.
  assert ("P1" ∈ (∅ : gset string)) as Hin by (rewrite <- Heq; by apply elem_of_singleton).
  by apply not_elem_of_empty in Hin.
Qed.

Lemma receiveManagementEvents_no_error_witness :
  (receiveManagementEvents_handler
     {| RemotePeers := [engine_samples.remote "P2"; engine_samples.remote "P3"] |}
     engine_samples.engine_P1_P2).1.1 = None.
Proof.
  apply (receiveManagementEvents_no_error
           {| RemotePeers := [engine_samples.remote "P2"; engine_samples.remote "P3"] |}
           engine_samples.engine_P1_P2).
  intros c. reflexivity.
Defined.

Lemma receiveSignalEvents_ignores_RemoteKey_witness :
  receiveSignalEvents_handler
    {| Message_Key := Message_Key engine_samples.offer_for_someone_else;
       Message_RemoteKey := "pub:Me";
       Message_Body := Message_Body engine_samples.offer_for_someone_else |}
    engine_samples.engine_P1
  = receiveSignalEvents_handler engine_samples.offer_for_someone_else
                                engine_samples.engine_P1.
Proof.
  apply (receiveSignalEvents_ignores_RemoteKey engine_samples.offer_for_someone_else
                                               "pub:Me" engine_samples.engine_P1).
  intros m1 m2 Hbody. simpl. unfold SM_UnMarshalCredential. by rewrite Hbody.
Defined.

Lemma runInitializer_check_absent_witness :
  runInitializer {| init_peer := engine_samples.peerOf "P1";
                    init_pc := AtCheck (Some "closed") |} engine_samples.engine0
  = ({| init_peer := engine_samples.peerOf "P1"; init_pc := Exited |},
     engine_samples.engine0).
Proof.
  apply (runInitializer_check_absent (engine_samples.peerOf "P1") (Some "closed")
                                     engine_samples.engine0).
  reflexivity.
Defined.

Lemma receiveSignalEvents_unknown_sender_witness :
  ∃ err, receiveSignalEvents_handler engine_samples.offer_from_stranger
                                     engine_samples.engine_P1
         = (Some err, engine_samples.engine_P1).
Proof.
  apply (receiveSignalEvents_unknown_sender engine_samples.offer_from_stranger
                                            engine_samples.engine_P1).
  left. vm_compute. reflexivity.
Defined.

(** C2, as the spec states it, fails: the engine's key is "Me" and [conns]
    holds an Idle connection to P1. An OFFER sent under P1's key and
    addressed to SomeoneElse is not answered with an error, and it takes
    the connection to Negotiating. *)
Lemma receiveSignalEvents_processes_misaddressed_offer :
  Message_RemoteKey engine_samples.offer_for_someone_else
  ≠ PublicKey (Connection := SMConnection)
              (WgPrivateKey (config engine_samples.engine_P1))
  ∧ SM_State <$> conns engine_samples.engine_P1 !! "P1" = Some Idle
  ∧ (receiveSignalEvents_handler engine_samples.offer_for_someone_else
                                 engine_samples.engine_P1).1 = None
  ∧ SM_State <$> conns (receiveSignalEvents_handler
                          engine_samples.offer_for_someone_else
                          engine_samples.engine_P1).2 !! "P1"
    = Some Negotiating.
Proof.
  split; [discriminate|]. split; [vm_compute; reflexivity|].
  split; vm_compute; reflexivity.
Qed.

(** C8. P1's initializer has made one attempt, [Open] has timed out, and
    the initializer waits for its retry with P1 in [conns]. An update that
    lists P2 only removes P1 from [conns]. The initializer's next attempt
    stores P1 in [conns] again and the initializer is in [Open] once more,
    not exited. (Had the update arrived while the initializer was in
    [Open], its check would have found P1 absent and it would have
    exited.) *)
Theorem initializer_readds_removed_peer :
  (is_Some (conns (engine engine_samples.after_first_attempt) !! "P1")
   ∧ init_pc <$> inits engine_samples.after_first_attempt !! 0%nat = Some AtOpen)
  ∧ (conns (engine engine_samples.after_removal) !! "P1" = None
     ∧ dom (conns (engine engine_samples.after_removal)) = (∅ : gset string)
     ∧ init_pc <$> inits engine_samples.after_removal !! 0%nat = Some AtOpen)
  ∧ (is_Some (conns (engine engine_samples.after_retry) !! "P1")
     ∧ init_pc <$> inits engine_samples.after_retry !! 0%nat = Some InOpen)
  ∧ (conns (engine engine_samples.removed_during_Open) !! "P1" = None
     ∧ init_pc <$> inits engine_samples.removed_during_Open !! 0%nat = Some Exited).
Proof.
  split; [split; [vm_compute; by eexists | vm_compute; reflexivity]|].
  split; [split; [|split]; vm_compute; reflexivity|].
  split; [split; [vm_compute; by eexists | vm_compute; reflexivity]|].
  split; vm_compute; reflexivity.
Qed.

End engine_scenarios.

(* ===================================================================== *)
(** * Part IV, continued: more of the Peer Engine                         *)
(* ===================================================================== *)

Section engine_more_proofs.
Import internal.
Context {Connection Candidate : Type} `{!Externals Connection Candidate}.

(** ** Removal *)

(** X15. [removePeerConnection] deletes the entry before it calls [Close]:
    when [removePeerConnections] returns an error, the connection whose
    [Close] failed was in [conns] under one of the keys given and is not
    in [conns] any more. *)
Lemma removePeerConnections_error_drops (peers : list string)
    (e e' : Engine Connection) (err : error) :
  removePeerConnections peers e = (Some err, e') →
  ∃ k c, k ∈ peers ∧ conns e !! k = Some c
         ∧ (Close c).2 = Some err ∧ conns e' !! k = None.
Proof.
  revert e. induction peers as [|peer rest IH]; intros e Hrun; simpl in Hrun;
    [discriminate|].
  unfold removePeerConnection in Hrun.
  destruct (conns e !! peer) as [c|] eqn:Hc.
  - destruct (Close c).2 as [err'|] eqn:Hclose.
    + injection Hrun as <- <-. exists peer, c.
      split; [left|]. split; [done|]. split; [done|]. simpl. apply lookup_delete_eq.
    + apply IH in Hrun as (k & c' & Hin & Hk & Hcl & Hgone). simpl in Hk.
      apply lookup_delete_Some in Hk as [_ Hk].
      exists k, c'. split; [by right|]. done.
  - apply IH in Hrun as (k & c' & Hin & Hk & Hcl & Hgone).
    exists k, c'. split; [by right|]. done.
Qed.

(** ** The management handler, again *)

Lemma handler_result (update : SyncResponse) (e e' : Engine Connection)
    (spawned : list Peer) :
  RemotePeers update ≠ [] →
  receiveManagementEvents_handler update e = (None, e', spawned) →
  (∀ k, conns e' !! k =
        if decide (k ∈ RemotePeerConfig_WgPubKey <$> RemotePeers update)
        then conns e !! k else None)
  ∧ config e' = config e ∧ wgPort e' = wgPort e
  ∧ spawned =
      (λ peer, {| WgPubKey := RemotePeerConfig_WgPubKey peer;
                  WgAllowedIps := Join (RemotePeerConfig_AllowedIps peer) "," |})
      <$> filter (λ peer, conns e' !! RemotePeerConfig_WgPubKey peer = None)
                 (RemotePeers update).
Proof.
  intros Hne. unfold receiveManagementEvents_handler. intros Hrun.
  destruct (decide (length (RemotePeers update) ≠ 0)) as [Hlen|Hlen];
    [|destruct (RemotePeers update); [done | simpl in Hlen; lia]].
  destruct (removePeerConnections _ e) as [[err|] e1] eqn:Hrem; [discriminate|].
  injection Hrun as <- <-.
  apply removePeerConnections_ok in Hrem as (Hk & Hcfg & Hport).
  split; [|done]. intros k. rewrite Hk.
  destruct (decide (k ∈ RemotePeerConfig_WgPubKey <$> RemotePeers update))
    as [Hin|Hnin].
  - rewrite decide_False; [done|]. intros Hrm.
    apply list_elem_of_filter in Hrm as [Hnot _]. apply Hnot.
    by apply elem_of_list_to_set.
  - destruct (conns e !! k) as [c|] eqn:Hc; [|by case_decide].
    rewrite decide_True; [done|]. apply list_elem_of_filter. split.
    + intros Hin. by apply elem_of_list_to_set in Hin.
    + apply rangeKeys_spec. by exists c.
Qed.

Lemma filter_none {A} (P : A → Prop) `{!∀ x, Decision (P x)} (l : list A) :
  (∀ x, x ∈ l → ¬ P x) → filter P l = [].
Proof.
  induction l as [|x l IH]; intros Hno; [done|].
  rewrite filter_cons_False by (apply Hno; left).
  apply IH. intros y Hy. apply Hno. by right.
Qed.

(** X16. Processing the same update once more, before any initializer it
    started has stored its connection, removes nothing and leaves [conns]
    as it is, and it starts the same initializers a second time. *)
Lemma receiveManagementEvents_repeat (update : SyncResponse)
    (e e' : Engine Connection) (spawned : list Peer) :
  receiveManagementEvents_handler update e = (None, e', spawned) →
  receiveManagementEvents_handler update e' = (None, e', spawned).
Proof.
  intros Hrun. destruct (decide (RemotePeers update = [])) as [Hnil|Hne].
  - unfold receiveManagementEvents_handler in *. rewrite Hnil in *. simpl in *.
    by injection Hrun as <- <-.
  - destruct (handler_result update e e' spawned Hne Hrun) as (Hk & _ & _ & Hsp).
    unfold receiveManagementEvents_handler.
    destruct (decide (length (RemotePeers update) ≠ 0)) as [Hlen|Hlen];
      [|destruct (RemotePeers update); [done | simpl in Hlen; lia]].
    rewrite filter_none.
    + simpl. by rewrite <- Hsp.
    + intros k Hin Hnot. apply rangeKeys_spec in Hin as [c Hc].
      rewrite Hk in Hc.
      destruct (decide (k ∈ RemotePeerConfig_WgPubKey <$> RemotePeers update))
        as [Hin|Hnin]; [|discriminate].
      apply Hnot. by apply elem_of_list_to_set.
Qed.

(** ** Initializers *)

Lemma receiveSignalEvents_dom (msg : Message) (e : Engine Connection) :
  dom (conns (receiveSignalEvents_handler msg e).2) = dom (conns e).
Proof.
  unfold receiveSignalEvents_handler.
  destruct (conns e !! Message_Key msg) as [conn|] eqn:Hconn; [|done].
  assert (∀ c, dom (<[Message_Key msg := c]> (conns e)) = dom (conns e)) as Hdom.
  { intros c. apply dom_insert_lookup_L. by exists conn. }
  destruct (negb _); [done|].
  destruct (Body_Type_of (Message_Body msg)); [| | |done].
  - destruct (UnMarshalCredential msg); simpl; [apply Hdom|done].
  - destruct (UnMarshalCredential msg); simpl; [apply Hdom|done].
  - destruct (UnmarshalCandidate _); simpl; [apply Hdom|done].
Qed.

Lemma elem_of_insert_inv {A} (l : list A) (i : nat) (x y : A) :
  x ∈ <[i := y]> l → x = y ∨ x ∈ l.
Proof.
  intros Hin. apply list_elem_of_lookup in Hin as [j Hj].
  destruct (decide (i = j)) as [->|Hne].
  - destruct (decide (j < length l)%nat) as [Hlt|Hge].
    + rewrite list_lookup_insert_eq in Hj by done. left. congruence.
    + rewrite list_insert_ge in Hj by lia. right. by eapply list_elem_of_lookup_2.
  - rewrite list_lookup_insert_ne in Hj by done. right.
    by eapply list_elem_of_lookup_2.
Qed.

Lemma settled_step (K : gset string) (ev : Event) (s : System Connection) :
  noUpdate ev → settled K s → settled K (step ev s).
Proof.
  intros Hev (Hdom & Hparse & Hpending).
  assert (∀ i t peer pc,
            inits s !! i = Some t → peer = init_peer t →
            (pc = AtOpen → WgPubKey peer ∈ K) →
            (∀ t', t' ∈ <[i := {| init_peer := peer; init_pc := pc |}]> (inits s) →
                   ParseKey_String (WgPubKey (init_peer t')) = WgPubKey (init_peer t'))
            ∧ (∀ t', t' ∈ <[i := {| init_peer := peer; init_pc := pc |}]> (inits s) →
                     init_pc t' = AtOpen → WgPubKey (init_peer t') ∈ K)) as Hkeep.
  { intros i t peer pc Ht -> Hpc.
    assert (t ∈ inits s) as Hin by (by eapply list_elem_of_lookup_2).
    split.
    - intros t' Hin'. apply elem_of_insert_inv in Hin' as [->|Hin'];
        [simpl; by apply Hparse | by apply Hparse].
    - intros t' Hin' Hpc'. apply elem_of_insert_inv in Hin' as [->|Hin'];
        [simpl in *; by apply Hpc | by apply Hpending]. }
  destruct ev as [u|msg|i|i err]; [done| | |]; simpl.
  - split; [|done]. simpl. by rewrite receiveSignalEvents_dom.
  - destruct (inits s !! i) as [t|] eqn:Ht; [|done].
    assert (t ∈ inits s) as Hin by (by eapply list_elem_of_lookup_2).
    pose proof (Hparse _ Hin) as Hp. pose proof (Hpending _ Hin) as Hq.
    unfold runInitializer. destruct t as [peer pc]. simpl in *.
    destruct pc as [| |err|]; simpl.
    + split; [|by apply (Hkeep i _ peer InOpen Ht)].
      unfold openPeerConnection_register. simpl. rewrite dom_insert_L, Hp.
      apply union_least; [|done]. apply singleton_subseteq_l. by apply Hq.
    + split; [done|]. by apply (Hkeep i _ peer InOpen Ht).
    + unfold operation_result. simpl.
      destruct (conns (engine s) !! WgPubKey peer) as [c|] eqn:Hc; [destruct err|]; simpl.
      * split; [done|]. apply (Hkeep i _ peer AtOpen Ht); [done|].
        intros _. apply Hdom. by apply elem_of_dom.
      * split; [done|]. by apply (Hkeep i _ peer Exited Ht).
      * split; [done|]. by apply (Hkeep i _ peer Exited Ht).
    + split; [done|]. by apply (Hkeep i _ peer Exited Ht).
  - destruct (inits s !! i) as [[peer pc]|] eqn:Ht; [|done].
    destruct pc; try done. simpl. split; [done|].
    by apply (Hkeep i _ peer (AtCheck err) Ht).
Qed.

Lemma settled_run (K : gset string) (evs : list Event) (s : System Connection) :
  Forall noUpdate evs → settled K s → settled K (run evs s).
Proof.
  intros Hevs. revert s. induction Hevs as [|ev evs Hev _ IH]; intros s Hs; [done|].
  simpl. apply IH. by apply settled_step.
Qed.

Lemma conns_grow_step (ev : Event) (s : System Connection) :
  noUpdate ev → dom (conns (engine s)) ⊆ dom (conns (engine (step ev s))).
Proof.
  intros Hev. destruct ev as [u|msg|i|i err]; [done| | |]; simpl.
  - by rewrite receiveSignalEvents_dom.
  - destruct (inits s !! i) as [[peer pc]|]; [|done].
    unfold runInitializer. simpl. destruct pc; simpl; try done.
    + unfold openPeerConnection_register. simpl. rewrite dom_insert_L.
      apply union_subseteq_r.
    + by destruct (operation_result _ _ _).
  - destruct (inits s !! i) as [[peer pc]|]; [|done]. by destruct pc.
Qed.

Lemma conns_grow_run (evs : list Event) (s : System Connection) :
  Forall noUpdate evs → dom (conns (engine s)) ⊆ dom (conns (engine (run evs s))).
Proof.
  intros Hevs. revert s. induction Hevs as [|ev evs Hev _ IH]; intros s; [done|].
  simpl. etrans; [by apply conns_grow_step|]. apply IH.
Qed.

Lemma pending_stays (ev : Event) (s : System Connection) (i : nat) (peer : Peer) :
  noUpdate ev → ev ≠ Run i →
  inits s !! i = Some {| init_peer := peer; init_pc := AtOpen |} →
  inits (step ev s) !! i = Some {| init_peer := peer; init_pc := AtOpen |}.
Proof.
  intros Hev Hne Hi. destruct ev as [u|msg|j|j err]; [done|done| |]; simpl.
  - assert (j ≠ i) as Hji by congruence.
    destruct (inits s !! j) as [t|]; [|done].
    destruct (runInitializer t (engine s)) as [t1 e1]. simpl.
    by rewrite list_lookup_insert_ne.
  - destruct (decide (j = i)) as [->|Hji].
    + by rewrite Hi.
    + destruct (inits s !! j) as [[p pc]|]; [|done]. destruct pc; try done.
      simpl. by rewrite list_lookup_insert_ne.
Qed.

Lemma first_attempt_registers (evs : list Event) (s : System Connection)
    (i : nat) (peer : Peer) :
  Forall noUpdate evs → Run i ∈ evs →
  inits s !! i = Some {| init_peer := peer; init_pc := AtOpen |} →
  ParseKey_String (WgPubKey peer) ∈ dom (conns (engine (run evs s))).
Proof.
  intros Hevs. revert s. induction Hevs as [|ev evs Hev Hevs IH]; intros s Hin Hi.
  - by apply elem_of_nil in Hin.
  - simpl.
    assert (ev = Run i ∨ ev ≠ Run i) as [->|Hne].
    { destruct ev as [u|msg|j|j err]; try (right; discriminate).
      destruct (decide (j = i)) as [->|Hji]; [by left | right; congruence]. }
    + apply (conns_grow_run evs _ Hevs). simpl. rewrite Hi. simpl.
      unfold openPeerConnection_register. simpl. rewrite dom_insert_L.
      apply elem_of_union_l. by apply elem_of_singleton.
    + apply IH.
      * apply elem_of_cons in Hin as [Heq|Hin]; [congruence|done].
      * by apply pending_stays.
Qed.

(** X18. In the engine with its initializers. The handler processes a
    non-empty update without error, at a moment when no initializer is
    about to make an attempt for a peer the update does not list, and all
    keys print back as they were given. Then, whatever the initializers
    do, whenever [Open] returns and whatever signal messages arrive, once
    every initializer the update started has run and as long as no other
    update has come, [conns] holds exactly the keys the update lists. *)
Theorem receiveManagementEvents_then_attempts (update : SyncResponse)
    (s : System Connection) (evs : list Event) :
  RemotePeers update ≠ [] →
  (receiveManagementEvents_handler update (engine s)).1.1 = None →
  (∀ peer, peer ∈ RemotePeers update →
           ParseKey_String (RemotePeerConfig_WgPubKey peer)
           = RemotePeerConfig_WgPubKey peer) →
  (∀ t, t ∈ inits s →
        ParseKey_String (WgPubKey (init_peer t)) = WgPubKey (init_peer t)) →
  (∀ t, t ∈ inits s → init_pc t = AtOpen →
        WgPubKey (init_peer t) ∈ RemotePeerConfig_WgPubKey <$> RemotePeers update) →
  Forall noUpdate evs →
  (∀ i, (length (inits s) ≤ i < length (inits (step (Update update) s)))%nat →
        Run i ∈ evs) →
  dom (conns (engine (run evs (step (Update update) s))))
  = (list_to_set (RemotePeerConfig_WgPubKey <$> RemotePeers update) : gset string).
Proof.
  intros Hne Hok HparseU Hparse Hpending Hevs Hruns.
  destruct (receiveManagementEvents_handler update (engine s))
    as [[o e1] spawned] eqn:Hrun. simpl in Hok. subst o.
  destruct (handler_result update (engine s) e1 spawned Hne Hrun)
    as (Hk & _ & _ & Hsp).
  set (K := (list_to_set (RemotePeerConfig_WgPubKey <$> RemotePeers update)
             : gset string)).
  set (mk := λ peer, {| WgPubKey := RemotePeerConfig_WgPubKey peer;
                        WgAllowedIps := Join (RemotePeerConfig_AllowedIps peer) "," |})
    in Hsp.
  assert (step (Update update) s
          = {| engine := e1;
               inits := (inits s ++ ((λ p, {| init_peer := p; init_pc := AtOpen |})
                                      <$> spawned))%list |}) as Hstep.
  { simpl. by rewrite Hrun. }
  rewrite Hstep in *. clear Hstep.
  assert (∀ p, p ∈ spawned →
               ParseKey_String (WgPubKey p) = WgPubKey p ∧ WgPubKey p ∈ K) as Hspawned.
  { intros p Hp. rewrite Hsp in Hp.
    apply list_elem_of_fmap in Hp as (peer & -> & Hpeer).
    apply list_elem_of_filter in Hpeer as [_ Hpeer]. simpl.
    split; [by apply HparseU|]. apply elem_of_list_to_set.
    apply list_elem_of_fmap. by exists peer. }
  apply (anti_symm (⊆)).
  - apply (settled_run K evs); [done|]. split; [|split]; simpl.
    + intros k Hin. apply elem_of_dom in Hin as [c Hc]. rewrite Hk in Hc.
      destruct (decide (k ∈ RemotePeerConfig_WgPubKey <$> RemotePeers update));
        [by apply elem_of_list_to_set | discriminate].
    + intros t Hin. apply elem_of_app in Hin as [Hin|Hin]; [by apply Hparse|].
      apply list_elem_of_fmap in Hin as (p & -> & Hp). by apply Hspawned.
    + intros t Hin Hpc. apply elem_of_app in Hin as [Hin|Hin].
      * apply elem_of_list_to_set. by apply Hpending.
      * apply list_elem_of_fmap in Hin as (p & -> & Hp). by apply Hspawned.
  - intros k Hin. apply elem_of_list_to_set in Hin.
    destruct (conns e1 !! k) as [c|] eqn:Hc.
    + apply (conns_grow_run evs _ Hevs). simpl. by apply elem_of_dom.
    + apply list_elem_of_fmap in Hin as (peer & -> & Hpeer).
      assert (mk peer ∈ spawned) as Hin.
      { rewrite Hsp. apply list_elem_of_fmap. exists peer. split; [done|].
        by apply list_elem_of_filter. }
      apply list_elem_of_lookup in Hin as [j Hj].
      assert (RemotePeerConfig_WgPubKey peer = ParseKey_String (WgPubKey (mk peer)))
        as -> by (symmetry; by apply HparseU).
      apply (first_attempt_registers evs _ (length (inits s) + j)); [done| |].
      * apply Hruns. simpl. rewrite length_app, length_fmap.
        apply lookup_lt_Some in Hj. lia.
      * simpl. rewrite lookup_app_r by lia.
        replace (length (inits s) + j - length (inits s))%nat with j by lia.
        by rewrite list_lookup_fmap, Hj.
Qed.

(** X17. An initializer for a peer whose key does not print back as it was
    given (it does not parse) stores its connection under the text of the
    parsed key, looks for the peer under the text it was given, does not
    find it, and exits after this first attempt whatever [Open] returned;
    the connection it stored stays in [conns]. *)
Lemma initializer_unparsable_key (peer : Peer) (err : option error)
    (e : Engine Connection) :
  ParseKey_String (WgPubKey peer) ≠ WgPubKey peer →
  conns e !! WgPubKey peer = None →
  ∃ e1,
    runInitializer {| init_peer := peer; init_pc := AtOpen |} e
    = ({| init_peer := peer; init_pc := InOpen |}, e1)
    ∧ runInitializer {| init_peer := peer; init_pc := AtCheck err |} e1
      = ({| init_peer := peer; init_pc := Exited |}, e1)
    ∧ is_Some (conns e1 !! ParseKey_String (WgPubKey peer))
    ∧ conns e1 !! WgPubKey peer = None.
Proof.
  intros Hparse Habsent. exists (openPeerConnection_register peer e).
  split; [reflexivity|].
  assert (conns (openPeerConnection_register peer e) !! WgPubKey peer = None) as Hgone.
  { unfold openPeerConnection_register. simpl. by rewrite lookup_insert_ne. }
  split.
  - unfold runInitializer, operation_result. cbn [init_pc init_peer].
    by rewrite Hgone.
  - split; [|exact Hgone].
    unfold openPeerConnection_register. simpl. rewrite lookup_insert_eq. by eexists.
Qed.

(** ** The signal handler, again *)

(** X19. The signal handler touches the connection of the sender and
    nothing else: the keys of [conns] are the same afterwards, every
    other connection is the same, and so are the engine's configuration
    and port. *)
Lemma receiveSignalEvents_frame (msg : Message) (e : Engine Connection) :
  dom (conns (receiveSignalEvents_handler msg e).2) = dom (conns e)
  ∧ (∀ k, k ≠ Message_Key msg →
          conns (receiveSignalEvents_handler msg e).2 !! k = conns e !! k)
  ∧ config (receiveSignalEvents_handler msg e).2 = config e
  ∧ wgPort (receiveSignalEvents_handler msg e).2 = wgPort e.
Proof.
  unfold receiveSignalEvents_handler.
  destruct (conns e !! Message_Key msg) as [conn|] eqn:Hconn; [|done].
  assert (∀ c, dom (<[Message_Key msg := c]> (conns e)) = dom (conns e)) as Hdom.
  { intros c. apply dom_insert_lookup_L. by exists conn. }
  destruct (negb _); [done|].
  destruct (Body_Type_of (Message_Body msg)).
  - destruct (UnMarshalCredential msg); simpl; [|done].
    split; [apply Hdom|]. split; [|done]. intros k Hk. by rewrite lookup_insert_ne.
  - destruct (UnMarshalCredential msg); simpl; [|done].
    split; [apply Hdom|]. split; [|done]. intros k Hk. by rewrite lookup_insert_ne.
  - destruct (UnmarshalCandidate _); simpl; [|done].
    split; [apply Hdom|]. split; [|done]. intros k Hk. by rewrite lookup_insert_ne.
  - done.
Qed.

(** X20. For a sender the engine has a connection for: an OFFER or ANSWER
    whose credential does not decode and a CANDIDATE whose payload does
    not parse are answered with the decoder's error, a body of a type the
    handler has no case for is dropped without an error, and in each case
    the engine is left as it is. *)
Theorem receiveSignalEvents_malformed :
  ∀ (msg : Message) (e : Engine Connection) (conn : Connection),
    conns e !! Message_Key msg = Some conn →
    RemoteWgKey (Config conn) = Message_Key msg →
    (∀ err, (Body_Type_of (Message_Body msg) = Body_OFFER
             ∨ Body_Type_of (Message_Body msg) = Body_ANSWER) →
            UnMarshalCredential msg = inr err →
            receiveSignalEvents_handler msg e = (Some err, e))
    ∧ (∀ err, Body_Type_of (Message_Body msg) = Body_CANDIDATE →
              UnmarshalCandidate (Body_Payload (Message_Body msg)) = inr err →
              receiveSignalEvents_handler msg e = (Some err, e))
    ∧ (Body_Type_of (Message_Body msg) = Body_UNKNOWN →
       receiveSignalEvents_handler msg e = (None, e)).
Proof.
  intros msg e conn Hconn Hkey. unfold receiveSignalEvents_handler.
  rewrite Hconn. apply String.eqb_eq in Hkey. rewrite Hkey. simpl.
  split; [|split].
  - intros err [Hty|Hty] Hdec; rewrite Hty, Hdec; done.
  - intros err Hty Hdec. by rewrite Hty, Hdec.
  - intros Hty. by rewrite Hty.
Qed.

End engine_more_proofs.

Section engine_more_scenarios.
Import internal.

(** With [conns = {P1, P2}] and the connection to P1 closed already,
    removing P1 and P2 fails at P1: P1 is gone from [conns] all the same,
    and P2, which the loop did not reach, is still there. *)
Lemma removePeerConnections_error_drops_witness :
  removePeerConnections ["P1"; "P2"] engine_samples2.engine_closed_P1
  = (Some "connection already closed",
     set_conns (delete "P1" (conns engine_samples2.engine_closed_P1))
               engine_samples2.engine_closed_P1)
  ∧ is_Some (delete "P1" (conns engine_samples2.engine_closed_P1) !! "P2")
  ∧ ∃ k c, k ∈ ["P1"; "P2"]
           ∧ conns engine_samples2.engine_closed_P1 !! k = Some c
           ∧ (Close c).2 = Some "connection already closed"
           ∧ conns (set_conns (delete "P1" (conns engine_samples2.engine_closed_P1))
                              engine_samples2.engine_closed_P1) !! k = None.
Proof.
  assert (removePeerConnections ["P1"; "P2"] engine_samples2.engine_closed_P1
          = (Some "connection already closed",
             set_conns (delete "P1" (conns engine_samples2.engine_closed_P1))
                       engine_samples2.engine_closed_P1)) as Hrun
    by (vm_compute; reflexivity).
  split; [exact Hrun|]. split; [vm_compute; by eexists|].
  exact (removePeerConnections_error_drops _ _ _ _ Hrun).
Defined.

Lemma receiveManagementEvents_repeat_witness :
  ∃ e' spawned,
    receiveManagementEvents_handler
      {| RemotePeers := [engine_samples.remote "P2"; engine_samples.remote "P3"] |}
      engine_samples.engine_P1_P2 = (None, e', spawned)
    ∧ WgPubKey <$> spawned = ["P3"]
    ∧ receiveManagementEvents_handler
        {| RemotePeers := [engine_samples.remote "P2"; engine_samples.remote "P3"] |}
        e' = (None, e', spawned).
Proof.
  eexists _, _. split; [vm_compute; reflexivity|].
  split; [vm_compute; reflexivity|].
  apply (receiveManagementEvents_repeat
    {| RemotePeers := [engine_samples.remote "P2"; engine_samples.remote "P3"] |}
    engine_samples.engine_P1_P2).
  vm_compute. reflexivity.
Defined.

Lemma initializer_unparsable_key_witness :
  ParseKey_String (WgPubKey engine_samples2.peer_bad_key) = zeroKeyText
  ∧ ∃ e1,
      runInitializer {| init_peer := engine_samples2.peer_bad_key; init_pc := AtOpen |}
                     engine_samples2.strict_engine0
      = ({| init_peer := engine_samples2.peer_bad_key; init_pc := InOpen |}, e1)
      ∧ runInitializer {| init_peer := engine_samples2.peer_bad_key;
                          init_pc := AtCheck (Some "timeout") |} e1
        = ({| init_peer := engine_samples2.peer_bad_key; init_pc := Exited |}, e1)
      ∧ is_Some (conns e1 !! zeroKeyText)
      ∧ conns e1 !! "not-a-key" = None.
Proof.
  split; [vm_compute; reflexivity|].
  assert (ParseKey_String (WgPubKey engine_samples2.peer_bad_key)
          ≠ WgPubKey engine_samples2.peer_bad_key) as Hparse
    by (vm_compute; discriminate).
  assert (conns engine_samples2.strict_engine0
            !! WgPubKey engine_samples2.peer_bad_key = None) as Habsent
    by (vm_compute; reflexivity).
  exact (initializer_unparsable_key engine_samples2.peer_bad_key (Some "timeout")
           engine_samples2.strict_engine0 Hparse Habsent).
Defined.

(** P1 and P2 are connecting when an update lists P2 and P3. The
    connection to P1 is closed and its initializer exits, the initializer
    of P3 makes its attempt, a stranger's offer arrives: [conns] ends with
    P2 and P3. *)
Lemma receiveManagementEvents_then_attempts_witness :
  dom (conns (engine engine_samples2.system_P1_P2)) = ({[ "P1"; "P2" ]} : gset string)
  ∧ dom (conns (engine
           (run [OpenReturns 0 (Some "closed"); Run 2; Run 0;
                 Signal engine_samples.offer_from_stranger;
                 OpenReturns 1 None; Run 1]
                (step (Update {| RemotePeers := [engine_samples.remote "P2";
                                                 engine_samples.remote "P3"] |})
                      engine_samples2.system_P1_P2))))
    = (list_to_set (RemotePeerConfig_WgPubKey
                      <$> [engine_samples.remote "P2"; engine_samples.remote "P3"])
       : gset string).
Proof.
  split; [vm_compute; reflexivity|].
  assert (inits engine_samples2.system_P1_P2
          = [{| init_peer := engine_samples.peerOf "P1"; init_pc := InOpen |};
             {| init_peer := engine_samples.peerOf "P2"; init_pc := InOpen |}])
    as Hinits by (vm_compute; reflexivity).
  apply (receiveManagementEvents_then_attempts
           {| RemotePeers := [engine_samples.remote "P2"; engine_samples.remote "P3"] |}
           engine_samples2.system_P1_P2).
  - discriminate.
  - vm_compute. reflexivity.
  - intros peer _. reflexivity.
  - intros t _. reflexivity.
  - intros t Hin Hpc. rewrite Hinits in Hin.
    apply elem_of_cons in Hin as [->|Hin]; [discriminate Hpc|].
    apply elem_of_cons in Hin as [->|Hin]; [discriminate Hpc|].
    by apply elem_of_nil in Hin.
  - by repeat constructor.
  - intros i [Hlo Hhi]. rewrite Hinits in Hlo.
    assert (length (inits (step (Update {| RemotePeers :=
                       [engine_samples.remote "P2"; engine_samples.remote "P3"] |})
                     engine_samples2.system_P1_P2)) = 3) as Hlen
      by (vm_compute; reflexivity).
    rewrite Hlen in Hhi. simpl in Hlo.
    assert (i = 2) as -> by lia. by repeat constructor.
Defined.

Lemma receiveSignalEvents_malformed_witness :
  (∃ err, receiveSignalEvents_handler engine_samples2.offer_malformed
            engine_samples.engine_P1 = (Some err, engine_samples.engine_P1))
  ∧ receiveSignalEvents_handler engine_samples2.message_unknown_type
      engine_samples.engine_P1 = (None, engine_samples.engine_P1).
Proof.
  assert (∃ conn, conns engine_samples.engine_P1 !! "P1" = Some conn
                  ∧ RemoteWgKey (Config conn) = "P1") as (conn & Hconn & Hkey)
    by (eexists; split; vm_compute; reflexivity).
  split.
  - eexists.
    apply (proj1 (receiveSignalEvents_malformed engine_samples2.offer_malformed
                    engine_samples.engine_P1 conn Hconn Hkey)).
    + by left.
    + vm_compute. reflexivity.
  - apply (proj2 (proj2 (receiveSignalEvents_malformed
                    engine_samples2.message_unknown_type
                    engine_samples.engine_P1 conn Hconn Hkey))).
    reflexivity.
Defined.

End engine_more_scenarios.

(* ===================================================================== *)
(** * Part V: properties of the WireGuard interface package               *)
(* ===================================================================== *)

Section iface_proofs.
Import iface.
Context `{Host}.

Ltac run_host :=
  unfold UpdatePeer, UpdatePeerEndpoint, UpdateListenPort, GetListenPort,
    ConfigureWithKeyGen, Configure, withClient, wgctrl_New, Client_Close,
    Client_Device, Client_ConfigureDevice, net_ResolveUDPAddr,
    wgtypes_GeneratePrivateKey;
  repeat (simpl in *; case_match; simplify_eq); simpl in *.

Ltac appended := eexists; split; [rewrite <- ?app_assoc; reflexivity | try reflexivity].

(** X21. Every function of the package closes the client it opened,
    whatever happens in between: among the calls a function adds, as many
    clients are closed as were opened, also when [UpdatePeer] goes on into
    [UpdatePeerEndpoint], which opens a client of its own. *)
Theorem clients_closed :
  (∀ iface privateKey t, ∃ evs,
     (Configure iface privateKey t).2 = (t ++ evs)%list ∧ opened evs = closed evs)
  ∧ (∀ iface t, ∃ evs,
       (ConfigureWithKeyGen iface t).2 = (t ++ evs)%list ∧ opened evs = closed evs)
  ∧ (∀ iface t, ∃ evs,
       (GetListenPort iface t).2 = (t ++ evs)%list ∧ opened evs = closed evs)
  ∧ (∀ iface newPort t, ∃ evs,
       (UpdateListenPort iface newPort t).2 = (t ++ evs)%list
       ∧ opened evs = closed evs)
  ∧ (∀ iface peerKey newEndpoint t, ∃ evs,
       (UpdatePeerEndpoint iface peerKey newEndpoint t).2 = (t ++ evs)%list
       ∧ opened evs = closed evs)
  ∧ (∀ iface peerKey allowedIps keepAlive endpoint t, ∃ evs,
       (UpdatePeer iface peerKey allowedIps keepAlive endpoint t).2 = (t ++ evs)%list
       ∧ opened evs = closed evs).
Proof.
  repeat split; intros; run_host; appended.
Qed.

(** X22. No function of the package replaces the peer list of a device:
    every configuration it sends is for the interface it was given, has
    [ReplacePeers] false and names one peer at most; [GetListenPort] sends
    none. *)
Theorem never_replaces_peers :
  (∀ iface privateKey t, ∃ evs,
     (Configure iface privateKey t).2 = (t ++ evs)%list
     ∧ Forall (additive iface) (configured evs))
  ∧ (∀ iface t, ∃ evs,
       (ConfigureWithKeyGen iface t).2 = (t ++ evs)%list
       ∧ Forall (additive iface) (configured evs))
  ∧ (∀ iface t, ∃ evs,
       (GetListenPort iface t).2 = (t ++ evs)%list ∧ configured evs = [])
  ∧ (∀ iface newPort t, ∃ evs,
       (UpdateListenPort iface newPort t).2 = (t ++ evs)%list
       ∧ Forall (additive iface) (configured evs))
  ∧ (∀ iface peerKey newEndpoint t, ∃ evs,
       (UpdatePeerEndpoint iface peerKey newEndpoint t).2 = (t ++ evs)%list
       ∧ Forall (additive iface) (configured evs))
  ∧ (∀ iface peerKey allowedIps keepAlive endpoint t, ∃ evs,
       (UpdatePeer iface peerKey allowedIps keepAlive endpoint t).2 = (t ++ evs)%list
       ∧ Forall (additive iface) (configured evs)).
Proof.
  repeat split; intros; run_host; appended;
    repeat constructor; simpl; lia.
Qed.

(** X23. [UpdatePeer] with an endpoint that does not resolve returns the
    resolver's error after it has configured the peer: the one
    configuration sent is the peer with its allowed addresses replaced and
    no endpoint, and it was accepted. *)
Lemma UpdatePeer_unresolved_endpoint (iface peerKey allowedIps : string)
    (keepAlive : Z) (endpoint : string) (t evs : list Event)
    (r : option error) (err : error) :
  UpdatePeer iface peerKey allowedIps keepAlive endpoint t = (r, (t ++ evs)%list) →
  EvResolveUDPAddr endpoint (inr err) ∈ evs →
  r = Some err
  ∧ ∃ ipNet,
      netlink_ParseIPNet allowedIps = inl ipNet
      ∧ configured evs
        = [(iface,
            {| PrivateKey := None; ListenPort := None; FirewallMark := None;
               ReplacePeers := false;
               Peers := [UpdatePeer_peer peerKey ipNet keepAlive] |},
            None)].
Proof.
  intros Hrun Hin. revert Hrun. run_host; intros Hrun;
    injection Hrun as <- Hevs; rewrite <- ?app_assoc in Hevs;
    apply app_inv_head in Hevs; subst evs; simpl in Hin;
    repeat (apply elem_of_cons in Hin as [Hin|Hin]; [try discriminate|]);
    try (by apply elem_of_nil in Hin).
  all: injection Hin as <-; split; [done|]; by eexists.
Qed.

(** X24. [UpdatePeer] drops the error of [wgtypes.ParseKey] and goes on
    with the key returned beside it: two key texts that parse to the same
    key, with or without an error, give the same run. [Configure] returns
    the error instead and sends no configuration. *)
Theorem UpdatePeer_ignores_key_error :
  (∀ iface k1 k2 allowedIps keepAlive endpoint t,
     (wgtypes_ParseKey k1).1 = (wgtypes_ParseKey k2).1 →
     UpdatePeer iface k1 allowedIps keepAlive endpoint t
     = UpdatePeer iface k2 allowedIps keepAlive endpoint t)
  ∧ (∀ iface privateKey err t,
       (wgtypes_ParseKey privateKey).2 = Some err →
       ∃ err' evs,
         Configure iface privateKey t = (Some err', (t ++ evs)%list)
         ∧ configured evs = []
         ∧ (host_New t = None → err' = err)).
Proof.
  split.
  - intros iface k1 k2 allowedIps keepAlive endpoint t Hkey.
    unfold UpdatePeer, UpdatePeerEndpoint, UpdatePeer_peer. by rewrite Hkey.
  - intros iface privateKey err t Herr. run_host; eexists _, _;
      (split; [rewrite <- ?app_assoc; reflexivity|]); split; try done; congruence.
Qed.

(** X25. When [UpdatePeer] returns no error, the allowed addresses parsed
    and the device was configured once if the endpoint is empty and twice
    otherwise: first the peer with its allowed addresses replaced, then,
    update-only, the endpoint as it resolved; each was accepted. *)
Lemma UpdatePeer_success (iface peerKey allowedIps : string) (keepAlive : Z)
    (endpoint : string) (t evs : list Event) :
  UpdatePeer iface peerKey allowedIps keepAlive endpoint t = (None, (t ++ evs)%list) →
  ∃ ipNet,
    netlink_ParseIPNet allowedIps = inl ipNet
    ∧ let first :=
        (iface,
         {| PrivateKey := None; ListenPort := None; FirewallMark := None;
            ReplacePeers := false;
            Peers := [UpdatePeer_peer peerKey ipNet keepAlive] |},
         None) in
      (endpoint = "" ∧ configured evs = [first])
      ∨ (endpoint ≠ ""
         ∧ ∃ peerAddr,
             EvResolveUDPAddr endpoint (inl peerAddr) ∈ evs
             ∧ configured evs
               = [first;
                  (iface,
                   {| PrivateKey := None; ListenPort := None; FirewallMark := None;
                      ReplacePeers := false;
                      Peers := [{| PublicKey := (wgtypes_ParseKey peerKey).1;
                                   UpdateOnly := true;
                                   Endpoint := Some peerAddr;
                                   PersistentKeepaliveInterval := None;
                                   ReplaceAllowedIPs := false;
                                   AllowedIPs := [] |}] |},
                   None)]).
Proof.
  run_host; intros Hrun; try discriminate Hrun;
    injection Hrun as Hevs; rewrite <- ?app_assoc in Hevs;
    apply app_inv_head in Hevs; subst evs; eexists; (split; [done|]); simpl.
  - right. split; [done|]. eexists. split; [|done]. by repeat constructor.
  - left. split; [|done]. by apply dec_stable.
Qed.
End iface_proofs.

Section ifname_proofs.
Import iface.

Lemma list_byte_of_string_length (s : string) :
  length (list_byte_of_string s) = String.length s.
Proof.
  unfold list_byte_of_string. rewrite List.length_map.
  induction s as [|a s IH]; simpl; [done|]. by rewrite IH.
Qed.

Lemma list_byte_of_string_app (s1 s2 : string) :
  list_byte_of_string (s1 ++ s2)
  = (list_byte_of_string s1 ++ list_byte_of_string s2)%list.
Proof.
  unfold list_byte_of_string. rewrite <- List.map_app. f_equal.
  induction s1 as [|a s1 IH]; simpl; [done|]. by rewrite IH.
Qed.

Lemma ifname_unfold (n : string) :
  ifname n = copy (replicate 16 x00) (list_byte_of_string n ++ [x00])%list.
Proof. unfold ifname. by rewrite list_byte_of_string_app. Qed.

Lemma ifname_length (n : string) : length (ifname n) = 16.
Proof.
  rewrite ifname_unfold. unfold copy.
  rewrite length_app, length_take, length_drop, !length_replicate, !length_app.
  cbn [length]. lia.
Qed.

Lemma ifname_short (n : string) :
  (String.length n < 16)%nat →
  ifname n = (list_byte_of_string n ++ replicate (16 - String.length n) x00)%list.
Proof.
  intros Hlen. rewrite ifname_unfold. unfold copy.
  rewrite length_replicate, length_app, list_byte_of_string_length. cbn [length].
  rewrite take_ge by (rewrite length_app, list_byte_of_string_length; cbn [length]; lia).
  rewrite drop_replicate, <- app_assoc. f_equal.
  replace (16 - String.length n)%nat with (S (16 - (String.length n + 1))) by lia.
  done.
Qed.

Lemma ifname_long (n : string) :
  (16 ≤ String.length n)%nat →
  ifname n = take 16 (list_byte_of_string n).
Proof.
  intros Hlen. rewrite ifname_unfold. unfold copy.
  rewrite length_replicate, length_app, list_byte_of_string_length. cbn [length].
  rewrite drop_ge by (rewrite length_replicate; lia).
  rewrite app_nil_r, take_app_le by (rewrite list_byte_of_string_length; lia).
  done.
Qed.

Lemma padded_inj (l1 l2 : list byte) (k1 k2 : nat) :
  x00 ∉ l1 → x00 ∉ l2 →
  (l1 ++ replicate k1 x00)%list = (l2 ++ replicate k2 x00)%list → l1 = l2.
Proof.
  revert l2. induction l1 as [|b l1 IH]; intros [|c l2] H1 H2 Heq; simpl in *.
  - done.
  - destruct k1; [done|]. simpl in Heq. injection Heq as <- _.
    exfalso. apply H2. left.
  - destruct k2; [done|]. simpl in Heq. injection Heq as -> _.
    exfalso. apply H1. left.
  - injection Heq as -> Heq. f_equal. apply IH; [| |done].
    + intros Hin. apply H1. by right.
    + intros Hin. apply H2. by right.
Qed.

(** X26. [ifname] always returns 16 bytes. A name shorter than 16 bytes is
    followed by zero bytes up to 16; a name of 16 bytes or more is cut to
    its first 16 bytes, and the result then has no terminating zero byte
    unless the name has one. *)
Theorem ifname_layout :
  (∀ n, length (ifname n) = 16)
  ∧ (∀ n, (String.length n < 16)%nat →
          ifname n
          = (list_byte_of_string n ++ replicate (16 - String.length n) x00)%list)
  ∧ (∀ n, (16 ≤ String.length n)%nat →
          ifname n = take 16 (list_byte_of_string n)
          ∧ (x00 ∉ list_byte_of_string n → x00 ∉ ifname n)).
Proof.
  split; [exact ifname_length|]. split; [exact ifname_short|].
  intros n Hlen. rewrite (ifname_long n Hlen). split; [done|].
  intros Hno Hin. apply Hno. by eapply (subseteq_take 16).
Qed.

(** X27. [ifname] tells names shorter than 16 bytes without a zero byte
    apart, and it maps names of 16 bytes or more that agree on their first
    16 bytes to the same buffer. *)
Theorem ifname_names :
  (∀ n1 n2, (String.length n1 < 16)%nat → (String.length n2 < 16)%nat →
            x00 ∉ list_byte_of_string n1 → x00 ∉ list_byte_of_string n2 →
            ifname n1 = ifname n2 → n1 = n2)
  ∧ (∀ n1 n2, (16 ≤ String.length n1)%nat → (16 ≤ String.length n2)%nat →
              take 16 (list_byte_of_string n1) = take 16 (list_byte_of_string n2) →
              ifname n1 = ifname n2).
Proof.
  split.
  - intros n1 n2 H1 H2 Hz1 Hz2 Heq.
    rewrite (ifname_short n1 H1), (ifname_short n2 H2) in Heq.
    apply padded_inj in Heq; [|done..].
    rewrite <- (string_of_list_byte_of_string n1), <- (string_of_list_byte_of_string n2).
    by rewrite Heq.
  - intros n1 n2 H1 H2 Heq. by rewrite (ifname_long n1 H1), (ifname_long n2 H2).
Qed.

End ifname_proofs.

Section iface_scenarios.
Import iface.
#[local] Existing Instance iface_samples.host0.

(** On wt0, a peer is updated with an endpoint that does not resolve: the
    call returns the resolver's error, and the peer has been configured
    all the same, without an endpoint. *)
Lemma UpdatePeer_unresolved_endpoint_witness :
  (UpdatePeer "wt0" iface_samples.someKey "10.0.0.2/32" 25 "nowhere" []).1
  = Some "missing port in address"
  ∧ configured
      (UpdatePeer "wt0" iface_samples.someKey "10.0.0.2/32" 25 "nowhere" []).2
    = [("wt0",
        {| PrivateKey := None; ListenPort := None; FirewallMark := None;
           ReplacePeers := false;
           Peers := [{| PublicKey := iface_samples.someKey;
                        UpdateOnly := false;
                        Endpoint := None;
                        PersistentKeepaliveInterval := Some 25%Z;
                        ReplaceAllowedIPs := true;
                        AllowedIPs := ["10.0.0.2/32"] |}] |},
        None)].
Proof.
  destruct (UpdatePeer_unresolved_endpoint
              "wt0" iface_samples.someKey "10.0.0.2/32" 25 "nowhere" []
              (UpdatePeer "wt0" iface_samples.someKey "10.0.0.2/32" 25 "nowhere" []).2
              (UpdatePeer "wt0" iface_samples.someKey "10.0.0.2/32" 25 "nowhere" []).1
              "missing port in address")
    as (Hr & ipNet & Hnet & Hcfg).
  - vm_compute. reflexivity.
  - vm_compute. by repeat constructor.
  - split; [exact Hr|]. rewrite Hcfg.
    assert (ipNet = "10.0.0.2/32") as -> by (vm_compute in Hnet; congruence).
    vm_compute. reflexivity.
Defined.

(** Two texts that are not keys configure the same peer, the one with the
    zero key, and the call succeeds; [Configure] refuses such a text and
    configures nothing. *)
Lemma UpdatePeer_ignores_key_error_witness :
  UpdatePeer "wt0" "not-a-key" "10.0.0.2/32" 25 "" []
  = UpdatePeer "wt0" "neither" "10.0.0.2/32" 25 "" []
  ∧ (UpdatePeer "wt0" "not-a-key" "10.0.0.2/32" 25 "" []).1 = None
  ∧ ∃ evs,
      Configure "wt0" "not-a-key" []
      = (Some "wgtypes: incorrect key size", evs)
      ∧ configured evs = [].
Proof.
  split; [|split].
  - apply (proj1 UpdatePeer_ignores_key_error). vm_compute. reflexivity.
  - vm_compute. reflexivity.
  - destruct (proj2 UpdatePeer_ignores_key_error "wt0" "not-a-key"
                "wgtypes: incorrect key size" [])
      as (err' & evs & Hrun & Hcfg & Herr); [vm_compute; reflexivity|].
    exists evs. rewrite Hrun, (Herr eq_refl). done.
Defined.

Lemma UpdatePeer_success_witness :
  (UpdatePeer "wt0" iface_samples.someKey "10.0.0.2/32" 25
              "203.0.113.7:51820" []).1 = None
  ∧ length (configured
      (UpdatePeer "wt0" iface_samples.someKey "10.0.0.2/32" 25
                  "203.0.113.7:51820" []).2) = 2.
Proof.
  split; [vm_compute; reflexivity|].
  destruct (UpdatePeer_success "wt0" iface_samples.someKey "10.0.0.2/32" 25
              "203.0.113.7:51820" []
              (UpdatePeer "wt0" iface_samples.someKey "10.0.0.2/32" 25
                          "203.0.113.7:51820" []).2)
    as (ipNet & Hnet & [[Hempty _]|[_ (peerAddr & _ & Hcfg)]]).
  - vm_compute. reflexivity.
  - discriminate Hempty.
  - by rewrite Hcfg.
Defined.

Lemma ifname_layout_witness :
  ifname "wt0"
  = ["w"; "t"; "0"; x00; x00; x00; x00; x00; x00; x00; x00; x00; x00; x00; x00; x00]%byte
  ∧ ifname "wiretrustee-tunnel0"
    = ["w"; "i"; "r"; "e"; "t"; "r"; "u"; "s"; "t"; "e"; "e"; "-"; "t"; "u"; "n"; "n"]%byte
  ∧ x00 ∉ ifname "wiretrustee-tunnel0".
Proof.
  destruct ifname_layout as (_ & Hshort & Hlong).
  split; [|split].
  - rewrite (Hshort "wt0") by (vm_compute; lia). reflexivity.
  - rewrite (proj1 (Hlong "wiretrustee-tunnel0" ltac:(vm_compute; lia))). reflexivity.
  - apply (Hlong "wiretrustee-tunnel0"); [vm_compute; lia|].
    intros Hin. vm_compute in Hin. by repeat (inversion_clear Hin as [|? ? ? Hin']; rename Hin' into Hin).
Defined.

Lemma ifname_names_witness :
  ifname "wiretrustee-tunnel0" = ifname "wiretrustee-tunnel1"
  ∧ ifname "wt0" ≠ ifname "wt1".
Proof.
  split.
  - apply (proj2 ifname_names); [vm_compute; lia..|reflexivity].
  - intros Heq. apply (proj1 ifname_names) in Heq; [discriminate Heq|..].
    1,2: vm_compute; lia.
    all: intros Hin; vm_compute in Hin;
      by repeat (inversion_clear Hin as [|? ? ? Hin']; rename Hin' into Hin).
Defined.

End iface_scenarios.

(* ===================================================================== *)
(** * Part VI: properties of the login command                            *)
(* ===================================================================== *)

Section cmd_proofs.
Import cmd.
Context {LoginResponse UUID : Type} `{!Service LoginResponse UUID}.

Lemma scan_blanks (blanks lines : list string) (w : World LoginResponse) :
  Forall (λ l, l = "") blanks →
  promptPeerSetupKey_scan (blanks ++ lines) w
  = promptPeerSetupKey_scan lines
      {| events := events w; stdin := stdin w; stdin_err := stdin_err w;
         stdout := (stdout w ++ replicate (length blanks) complaint)%list |}.
Proof.
  intros Hblank. revert w. induction Hblank as [|l blanks -> _ IH]; intros w; simpl.
  - rewrite app_nil_r. by destruct w.
  - rewrite IH. simpl. by rewrite <- app_assoc.
Qed.

Lemma scan_events (lines : list string) (w : World LoginResponse) :
  events (promptPeerSetupKey_scan lines w).2 = events w
  ∧ ((promptPeerSetupKey_scan lines w).1.1 ∈ lines
     ∨ (promptPeerSetupKey_scan lines w).1.1 = "").
Proof.
  revert w. induction lines as [|l lines IH]; intros w; simpl.
  - split; [done|by right].
  - case_decide.
    + simpl. split; [done|]. left. left.
    + destruct (IH (Print complaint w)) as [-> Hkey]. split; [done|].
      destruct Hkey as [Hin|Hnil]; [left; by right|by right].
Qed.

(** X28. [promptPeerSetupKey] returns the first line that is not empty,
    having printed the prompt and one complaint for each empty line before
    it. When every line is empty it returns the empty key with the
    scanner's error, which is nil at the end of the input. It calls
    nothing. *)
Theorem promptPeerSetupKey_first_nonempty :
  (∀ (w : World LoginResponse) blanks key rest,
     stdin w = (blanks ++ key :: rest)%list →
     Forall (λ l, l = "") blanks → key ≠ "" →
     ∃ w',
       promptPeerSetupKey w = ((key, None), w')
       ∧ stdout w'
         = (stdout w ++ "Enter setup key: " :: replicate (length blanks) complaint)%list
       ∧ events w' = events w)
  ∧ (∀ (w : World LoginResponse),
       Forall (λ l, l = "") (stdin w) →
       ∃ w',
         promptPeerSetupKey w = (("", stdin_err w), w')
         ∧ stdout w'
           = (stdout w
              ++ "Enter setup key: " :: replicate (length (stdin w)) complaint)%list
         ∧ events w' = events w).
Proof.
  split.
  - intros w blanks key rest Hin Hblank Hkey. unfold promptPeerSetupKey. simpl.
    rewrite Hin, scan_blanks by done. simpl. rewrite decide_True by done.
    eexists. split; [reflexivity|]. simpl. by rewrite <- app_assoc.
  - intros w Hblank. unfold promptPeerSetupKey. simpl.
    pose proof (scan_blanks (stdin w) [] (Print "Enter setup key: " w) Hblank) as Hs.
    rewrite app_nil_r in Hs. rewrite Hs. simpl.
    eexists. split; [reflexivity|]. simpl. by rewrite <- app_assoc.
Qed.

(** X29. [loginPeer] registers only a peer whose login was refused with
    PermissionDenied, and only with the printed form of a UUID it parsed:
    from the setup key it was given or, when that is empty, from a line
    read from the input (or from the empty text, when the input ended
    without an error). What [Register] returns is what [loginPeer]
    returns. *)
Lemma loginPeer_registers (serverKey : Key) (setupKey : string)
    (w w' : World LoginResponse) (r : LoginResponse + error) :
  loginPeer serverKey setupKey w = (r, w') →
  ∃ evs,
    events w' = (events w ++ evs)%list
    ∧ ∀ k s res,
        EvRegister k s res ∈ evs →
        k = serverKey ∧ res = r
        ∧ (∃ msg, service_Login (events w) serverKey
                  = inr (StatusError codes_PermissionDenied msg))
        ∧ ∃ typed u,
            uuid_Parse typed = inl u ∧ s = uuid_String u
            ∧ (typed = setupKey
               ∨ (setupKey = "" ∧ (typed ∈ stdin w ∨ typed = ""))).
Proof.
  unfold loginPeer, Client_Login. simpl.
  destruct (service_Login (events w) serverKey) as [resp|err] eqn:Hlogin.
  - intros [= <- <-]. simpl. eexists. split; [reflexivity|].
    intros k s res Hin. apply list_elem_of_singleton in Hin. discriminate.
  - destruct err as [code msg|msg]; simpl.
    2: { intros [= <- <-]. simpl. eexists. split; [reflexivity|].
         intros k s res Hin. apply list_elem_of_singleton in Hin. discriminate. }
    destruct (code =? codes_PermissionDenied)%N eqn:Hcode.
    2: { intros [= <- <-]. simpl. eexists. split; [reflexivity|].
         intros k s res Hin. apply list_elem_of_singleton in Hin. discriminate. }
    apply N.eqb_eq in Hcode. subst code.
    unfold registerPeer.
    set (w0 := record _ w).
    destruct (decide (setupKey = "")) as [Hempty|Hgiven].
    + destruct (promptPeerSetupKey w0) as [[typed perr] w1] eqn:Hprompt.
      assert (events w1 = events w0
              ∧ (typed ∈ stdin w ∨ typed = "")) as [Hev Htyped].
      { unfold promptPeerSetupKey in Hprompt.
        destruct (scan_events (stdin (Print "Enter setup key: " w0))
                              (Print "Enter setup key: " w0)) as [He Hk].
        rewrite Hprompt in He, Hk. simpl in He, Hk. done. }
      destruct perr as [perr|].
      { intros [= <- <-]. rewrite Hev. simpl. eexists. split; [reflexivity|].
        intros k s res Hin. apply list_elem_of_singleton in Hin. discriminate. }
      destruct (uuid_Parse typed) as [u|uerr] eqn:Hparse.
      2: { intros [= <- <-]. rewrite Hev. simpl. eexists. split; [reflexivity|].
           intros k s res Hin. apply list_elem_of_singleton in Hin. discriminate. }
      unfold Client_Register. simpl. rewrite Hev. simpl.
      set (res0 := service_Register _ _ _).
      intros Hrun.
      assert (r = res0 ∧ events w' = ((events w ++ [EvLogin serverKey
                   (inr (StatusError codes_PermissionDenied msg))]) ++
                   [EvRegister serverKey (uuid_String u) res0])%list) as [-> ->].
      { destruct res0; injection Hrun as <- <-; simpl; by rewrite Hev. }
      rewrite <- app_assoc. eexists. split; [reflexivity|].
      intros k s res Hin. simpl in Hin.
      apply elem_of_cons in Hin as [Hin|Hin]; [discriminate|].
      apply list_elem_of_singleton in Hin. injection Hin as -> -> ->.
      split; [done|]. split; [done|]. split; [by eexists|].
      exists typed, u. split; [done|]. split; [done|]. right. done.
    + simpl. destruct (uuid_Parse setupKey) as [u|uerr] eqn:Hparse.
      2: { intros [= <- <-]. simpl. eexists. split; [reflexivity|].
           intros k s res Hin. apply list_elem_of_singleton in Hin. discriminate. }
      unfold Client_Register. simpl.
      set (res0 := service_Register _ _ _).
      intros Hrun.
      assert (r = res0 ∧ events w' = ((events w ++ [EvLogin serverKey
                   (inr (StatusError codes_PermissionDenied msg))]) ++
                   [EvRegister serverKey (uuid_String u) res0])%list) as [-> ->].
      { destruct res0; by injection Hrun as <- <-. }
      rewrite <- app_assoc. eexists. split; [reflexivity|].
      intros k s res Hin. simpl in Hin.
      apply elem_of_cons in Hin as [Hin|Hin]; [discriminate|].
      apply list_elem_of_singleton in Hin. injection Hin as -> -> ->.
      split; [done|]. split; [done|]. split; [by eexists|].
      exists setupKey, u. split; [done|]. split; [done|]. by left.
Qed.


Lemma promptPeerSetupKey_events (w : World LoginResponse) :
  events (promptPeerSetupKey w).2 = events w.
Proof. unfold promptPeerSetupKey. by rewrite (proj1 (scan_events _ _)). Qed.

Lemma registerPeer_events (serverKey : Key) (setupKey : string)
    (w : World LoginResponse) :
  ∃ evs, events (registerPeer serverKey setupKey w).2 = (events w ++ evs)%list
         ∧ Forall noClose evs.
Proof.
  unfold registerPeer.
  assert (∃ typed perr w1,
            (if decide (setupKey = "") then promptPeerSetupKey w
             else ((setupKey, None), w)) = ((typed, perr), w1)
            ∧ events w1 = events w) as (typed & perr & w1 & -> & Hev).
  { case_decide.
    - destruct (promptPeerSetupKey w) as [[typed perr] w1] eqn:Hp.
      exists typed, perr, w1. split; [done|].
      by rewrite <- (promptPeerSetupKey_events w), Hp.
    - by eexists _, _, _. }
  destruct perr as [perr|]; simpl.
  { exists []. rewrite app_nil_r. done. }
  destruct (uuid_Parse typed) as [u|uerr]; simpl.
  2: { exists []. rewrite app_nil_r. done. }
  unfold Client_Register. simpl.
  destruct (service_Register _ _ _); simpl; rewrite Hev;
    eexists; (split; [reflexivity|]); by repeat constructor.
Qed.

Lemma loginPeer_events (serverKey : Key) (setupKey : string)
    (w : World LoginResponse) :
  ∃ evs, events (loginPeer serverKey setupKey w).2 = (events w ++ evs)%list
         ∧ Forall noClose evs.
Proof.
  unfold loginPeer, Client_Login. simpl.
  destruct (service_Login (events w) serverKey) as [resp|err]; simpl.
  { eexists. split; [reflexivity|]. by repeat constructor. }
  destruct (status_FromError err) as [code ok].
  destruct (ok && (code =? codes_PermissionDenied)%N); simpl.
  2: { eexists. split; [reflexivity|]. by repeat constructor. }
  destruct (registerPeer_events serverKey setupKey
              (record (EvLogin serverKey (inr err)) w)) as (evs & -> & Hno).
  simpl. rewrite <- app_assoc. eexists. split; [reflexivity|].
  by constructor.
Qed.

(** X30. The login command closes the client on its way to success only:
    when it returns nil the client was created and the last call closed
    it; when it returns an error, either no [Close] was called, also when
    the client had been created, or the error is the one [Close]
    returned. *)
Lemma loginCmd_closes_on_success_only (setupKey managementURL configPath : string)
    (w w' : World LoginResponse) (r : option error) :
  loginCmd_RunE setupKey managementURL configPath w = (r, w') →
  ∃ evs,
    events w' = (events w ++ evs)%list
    ∧ (r = None →
       (∃ host key tls, EvNewClient host key tls None ∈ evs)
       ∧ last evs = Some (EvClose None))
    ∧ (∀ err, r = Some err →
         Forall noClose evs ∨ last evs = Some (EvClose (Some err))).
Proof.
  unfold loginCmd_RunE, internal_GetConfig, mgm_NewClient,
    Client_GetServerPublicKey, Client_Close. simpl.
  destruct (service_GetConfig _ _ _) as [config|err]; simpl.
  2: { intros [= <- <-]. simpl. eexists. split; [reflexivity|].
       split; [done|]. intros ? _. left. by repeat constructor. }
  destruct (wgtypes_ParseKey _) as [key|err]; simpl.
  2: { intros [= <- <-]. simpl. eexists. split; [reflexivity|].
       split; [done|]. intros ? _. left. by repeat constructor. }
  destruct (service_NewClient _ _ _ _) as [err|] eqn:Hnew; simpl.
  { intros [= <- <-]. simpl. rewrite <- app_assoc. eexists. split; [reflexivity|].
    split; [done|]. intros ? _. left. by repeat constructor. }
  destruct (service_GetServerPublicKey _) as [serverKey|err]; simpl.
  2: { intros [= <- <-]. simpl. rewrite <- !app_assoc. eexists.
       split; [reflexivity|].
       split; [done|]. intros ? _. left. by repeat constructor. }
  match goal with |- context [loginPeer serverKey setupKey ?w0] =>
    destruct (loginPeer_events serverKey setupKey w0) as (evs & Hev & Hno);
    destruct (loginPeer serverKey setupKey w0) as [[resp|err] w1]
  end; simpl in Hev.
  2: { intros [= <- <-]. rewrite Hev, <- !app_assoc. eexists.
       split; [reflexivity|].
       split; [done|]. intros ? _. left. simpl. by repeat constructor. }
  destruct (service_Close (events w1)) as [err|]; intros [= <- <-]; simpl;
    rewrite Hev, <- !app_assoc; (eexists; split; [reflexivity|]); simpl.
  - split; [done|]. intros ? [= <-]. right.
    rewrite !app_comm_cons. apply last_snoc.
  - split; [|done]. intros _. split.
    + eexists _, _, _. right. left.
    + rewrite !app_comm_cons. apply last_snoc.
Qed.

End cmd_proofs.

Section cmd_scenarios.
Import cmd.
#[local] Existing Instance cmd_samples.service0.

Lemma promptPeerSetupKey_first_nonempty_witness :
  (∃ w', promptPeerSetupKey cmd_samples.world_typed = ((cmd_samples.K, None), w')
         ∧ stdout w' = ["Enter setup key: "; complaint; complaint])
  ∧ (∃ w', promptPeerSetupKey cmd_samples.world_eof = (("", None), w')
           ∧ stdout w' = ["Enter setup key: "; complaint]).
Proof.
  split.
  - destruct (proj1 promptPeerSetupKey_first_nonempty cmd_samples.world_typed
                [""; ""] cmd_samples.K ["more"]) as (w' & Hrun & Hout & _).
    + reflexivity.
    + by repeat constructor.
    + discriminate.
    + exists w'. split; [exact Hrun|exact Hout].
  - destruct (proj2 promptPeerSetupKey_first_nonempty cmd_samples.world_eof)
      as (w' & Hrun & Hout & _).
    + by repeat constructor.
    + exists w'. split; [exact Hrun|exact Hout].
Defined.

Lemma loginPeer_registers_witness :
  (loginPeer "ServerKey" "" cmd_samples.world_typed).1 = inl "registered"
  ∧ events (loginPeer "ServerKey" "" cmd_samples.world_typed).2
    = [EvLogin "ServerKey"
         (inr (StatusError codes_PermissionDenied "peer is not registered"));
       EvRegister "ServerKey" cmd_samples.K (inl "registered")]
  ∧ ∃ typed u,
      uuid_Parse typed = inl u ∧ cmd_samples.K = uuid_String u
      ∧ (typed = ""
         ∨ ("" = "" ∧ (typed ∈ stdin cmd_samples.world_typed ∨ typed = ""))).
Proof.
  assert (events (loginPeer "ServerKey" "" cmd_samples.world_typed).2
          = [EvLogin "ServerKey"
               (inr (StatusError codes_PermissionDenied "peer is not registered"));
             EvRegister "ServerKey" cmd_samples.K (inl "registered")]) as Hevents
    by (vm_compute; reflexivity).
  split; [vm_compute; reflexivity|]. split; [exact Hevents|].
  destruct (loginPeer_registers "ServerKey" "" cmd_samples.world_typed
              (loginPeer "ServerKey" "" cmd_samples.world_typed).2
              (loginPeer "ServerKey" "" cmd_samples.world_typed).1)
    as (evs & Hev & Hreg); [by destruct (loginPeer _ _ _)|].
  rewrite Hevents in Hev. simpl in Hev. subst evs.
  destruct (Hreg "ServerKey" cmd_samples.K (inl "registered"))
    as (_ & _ & _ & Htyped); [right; left|].
  exact Htyped.
Defined.

Lemma loginCmd_closes_on_success_only_witness :
  (loginCmd_RunE "" "https://api.example.org:33073" "/etc/wiretrustee/config.json"
                 cmd_samples.world_eof).1
  = Some (OtherError "invalid UUID length")
  ∧ EvNewClient "api.example.org:33073" iface_samples.someKey true None
    ∈ events (loginCmd_RunE "" "https://api.example.org:33073"
                "/etc/wiretrustee/config.json" cmd_samples.world_eof).2
  ∧ Forall noClose
      (events (loginCmd_RunE "" "https://api.example.org:33073"
                 "/etc/wiretrustee/config.json" cmd_samples.world_eof).2).
Proof.
  assert ((loginCmd_RunE "" "https://api.example.org:33073"
             "/etc/wiretrustee/config.json" cmd_samples.world_eof).1
          = Some (OtherError "invalid UUID length")) as Hr
    by (vm_compute; reflexivity).
  split; [exact Hr|]. split; [vm_compute; right; left|].
  destruct (loginCmd_closes_on_success_only "" "https://api.example.org:33073"
              "/etc/wiretrustee/config.json" cmd_samples.world_eof
              (loginCmd_RunE "" "https://api.example.org:33073"
                 "/etc/wiretrustee/config.json" cmd_samples.world_eof).2
              (loginCmd_RunE "" "https://api.example.org:33073"
                 "/etc/wiretrustee/config.json" cmd_samples.world_eof).1)
    as (evs & Hev & _ & Hfail); [by destruct (loginCmd_RunE _ _ _ _)|].
  simpl in Hev. subst evs.
  destruct (Hfail _ Hr) as [Hno|Hlast]; [exact Hno|].
  vm_compute in Hlast. discriminate Hlast.
Defined.

End cmd_scenarios.
